(** * Masters Fantasy Pool: the scoring engine of [streamlit_app.py]

    A shallow embedding of the score normalizer, the player resolver, the
    team aggregation loop and the leaderboard sort, with the properties of
    the specification proved (or refuted) against it.

    Conventions of the embedding.
    - Python exceptions are explicit: a computation that may raise has type
      [res A]; [try: ... except: ...] is [try_except].
    - Feed values are JSON values as Python loads them ([value]).  A float
      is the rational number it stands for, or NaN, or an infinity.
    - Strings are ASCII text: [isspace], [lower] and [upper] are Python's on
      the code points below 128 and leave the other characters alone.
      [int] on a string is Python's on ASCII text ([ascii_text]); in a
      string with other characters Python reads the decimal digits and the
      blanks of every script, which the embedding does not.
    - [int] on a string keeps the interpreter's limit on the number of
      digits, at its default of 4300.
    - Dictionaries are [gmap]s; only lookups and order-independent folds of
      them are used.  Where the order of insertion shows (the pick counts of
      the sidebar) or a value is looked at from outside (the objects of a
      decoded body), a dictionary is the list of its items. *)

From Stdlib Require Import ZArith Ascii String Lia.
From stdpp Require Import base option list list_monad sorting gmap strings pretty.

Local Open Scope Z_scope.

(** Let [simpl] compute the concatenation of strings. *)
Local Arguments String.append !_ _ / : simpl nomatch.

(** ** Python builtins *)

Module Py.

(** The exceptions of the builtins, and the one of [requests] for a request
    that fails. *)
Inductive exn :=
| ValueError | TypeError | AttributeError | KeyError | OverflowError
| RequestException.

Inductive res (A : Type) :=
| Ret (a : A)
| Raise (e : exn).
Arguments Ret {A} a.
Arguments Raise {A} e.

#[global] Instance res_ret : MRet res := @Ret.
#[global] Instance res_bind : MBind res := λ A B f m,
  match m with Ret a => f a | Raise e => Raise e end.

(** [try: body / except: handler] with a bare [except]. *)
Definition try_except {A} (body : res A) (handler : exn → res A) : res A :=
  match body with Ret a => Ret a | Raise e => handler e end.

(** A float: a finite one is given by a fraction [num / den] that equals
    it; [json.loads] reads [NaN], [Infinity] and [-Infinity] too, and a
    number too large for a float as an infinity. *)
Inductive float :=
| Finite (num : Z) (den : positive)
| NaN
| Infinity (negative : bool).

(** What [json.loads] produces. *)
#[warnings="-register-all"]
Inductive value :=
| PNone
| PBool (b : bool)
| PInt (z : Z)
| PFloat (f : float)
| PStr (s : string)
| PList (l : list value)
| PDict (d : list (string * value)).

(** *** Characters *)

Definition code (c : ascii) : N := N_of_ascii c.

Definition in_range (lo hi : N) (c : ascii) : bool :=
  ((lo <=? code c) && (code c <=? hi))%N.

(** [str.isspace] on ASCII: TAB..CR, FS..US and the blank. *)
Definition isspace (c : ascii) : bool :=
  in_range 9 13 c || in_range 28 32 c.

(** The C-level [Py_ISSPACE] that [int] applies to an ASCII string. *)
Definition c_isspace (c : ascii) : bool :=
  in_range 9 13 c || in_range 32 32 c.

Definition isdigit (c : ascii) : bool := in_range 48 57 c.

Definition digit_value (c : ascii) : Z := Z.of_N (code c) - 48.

Definition lower_char (c : ascii) : ascii :=
  if in_range 65 90 c then ascii_of_N (code c + 32) else c.

Definition upper_char (c : ascii) : ascii :=
  if in_range 97 122 c then ascii_of_N (code c - 32) else c.

(** *** Strings *)

Fixpoint lower (s : string) : string :=
  match s with
  | EmptyString => EmptyString
  | String c r => String (lower_char c) (lower r)
  end.

Fixpoint upper (s : string) : string :=
  match s with
  | EmptyString => EmptyString
  | String c r => String (upper_char c) (upper r)
  end.

Fixpoint lstrip (s : string) : string :=
  match s with
  | EmptyString => EmptyString
  | String c r => if isspace c then lstrip r else s
  end.

Fixpoint rstrip (s : string) : string :=
  match s with
  | EmptyString => EmptyString
  | String c r =>
      match rstrip r with
      | EmptyString => if isspace c then EmptyString else String c EmptyString
      | r' => String c r'
      end
  end.

(** [s.strip()] *)
Definition strip (s : string) : string := lstrip (rstrip s).

(** [str(n)] for an integer. *)
Definition str (n : Z) : string := pretty n.

(** *** [int(x)] *)

Fixpoint skip_space (s : string) : string :=
  match s with
  | EmptyString => EmptyString
  | String c r => if c_isspace c then skip_space r else s
  end.

(** The digit scan of [int]: decimal digits, single underscores allowed
    between two digits only.  [prev_digit] says that the previous
    character was a digit; the scan stops at the first other character
    and hands back what is left. *)
Fixpoint scan_digits (s : string) (prev_digit : bool) (acc : Z)
  : option (Z * string) :=
  match s with
  | EmptyString => if prev_digit then Some (acc, EmptyString) else None
  | String c r =>
      if isdigit c then scan_digits r true (10 * acc + digit_value c)
      else if Ascii.eqb c "_" then
        (if prev_digit then scan_digits r false acc else None)
      else if prev_digit then Some (acc, s) else None
  end.

Definition take_sign (s : string) : Z * string :=
  match s with
  | String c r =>
      if Ascii.eqb c "+" then (1, r)
      else if Ascii.eqb c "-" then (-1, r)
      else (1, s)
  | EmptyString => (1, s)
  end.

(** The limit on the digits of a string that [int] converts
    ([sys.get_int_max_str_digits()]), at its default. *)
Definition int_max_str_digits : Z := 4300.

(** The digits in [s]; signs, underscores and blanks do not count. *)
Fixpoint digit_count (s : string) : Z :=
  match s with
  | EmptyString => 0
  | String c r => (if isdigit c then 1 else 0) + digit_count r
  end.

(** [int(s)] for a string of ASCII text: blanks, sign, digits, blanks, end;
    then the limit on the number of digits, leading zeros included. *)
Definition int_of_str (s : string) : res Z :=
  let '(sign, body) := take_sign (skip_space s) in
  match scan_digits body false 0 with
  | Some (n, rest) =>
      match skip_space rest with
      | EmptyString =>
          if decide (digit_count body ≤ int_max_str_digits)
          then Ret (sign * n) else Raise ValueError
      | _ => Raise ValueError
      end
  | None => Raise ValueError
  end.

(** [int(f)] for a float: the integer part, towards zero. *)
Definition int_of_float (f : float) : res Z :=
  match f with
  | Finite num den => Ret (num ÷ Z.pos den)
  | NaN => Raise ValueError
  | Infinity _ => Raise OverflowError
  end.

Definition int (v : value) : res Z :=
  match v with
  | PInt z => Ret z
  | PBool b => Ret (if b then 1 else 0)
  | PFloat f => int_of_float f
  | PStr s => int_of_str s
  | PNone | PList _ | PDict _ => Raise TypeError
  end.

(** [v == s] for a string literal [s]. *)
Definition eq_str (v : value) (s : string) : bool :=
  match v with
  | PStr t => bool_decide (t = s)
  | _ => false
  end.

(** [v.upper()]: only strings have the method. *)
Definition upper_method (v : value) : res string :=
  match v with
  | PStr s => Ret (upper s)
  | _ => Raise AttributeError
  end.

(** [v.strip().lower()] *)
Definition strip_lower_method (v : value) : res string :=
  match v with
  | PStr s => Ret (lower (strip s))
  | _ => Raise AttributeError
  end.

(** [max(l)] of a list of integers. *)
Definition max (l : list Z) : res Z :=
  match l with
  | [] => Raise ValueError
  | x :: r => Ret (foldl Z.max x r)
  end.

(** [sum(l)] *)
Definition sum (l : list Z) : Z := foldl Z.add 0 l.

(** [sorted(l, key=key)] and [l.sort(key=key)]: the stable ascending sort.
    An element goes in front of the first element whose key is not
    smaller, so the earlier of two equal keys stays first. *)
Section Sort.
Context {A : Type} (key : A → Z).

Fixpoint insert_by (x : A) (l : list A) : list A :=
  match l with
  | [] => [x]
  | y :: r => if decide (key x ≤ key y) then x :: l else y :: insert_by x r
  end.

Definition sorted (l : list A) : list A := foldr insert_by [] l.
End Sort.

(** [d[k]] and [d.get(k, default)] on a dictionary. *)
Definition getitem {V} (d : gmap string V) (k : string) : res V :=
  match d !! k with
  | Some v => Ret v
  | None => Raise KeyError
  end.

Definition get {V} (d : gmap string V) (k : string) (dflt : V) : V :=
  default dflt (d !! k).

(** [d.values()]; the order is the map's, not Python's insertion order. *)
Definition values {V} (d : gmap string V) : list V := (map_to_list d).*2.

(** [not d] for a dictionary: true when it has no key. *)
Definition not_dict {V} (d : gmap string V) : bool :=
  match map_to_list d with [] => true | _ => false end.

End Py.
Import Py.


(** ** The program *)

(** A record of the feed and the index of the feed (name to record). *)
Abbreviation player := (gmap string value).
Abbreviation feed_index := (gmap string (gmap string value)).

(** A team of [teams_data]: ["Person"] and ["Tier 1"] .. ["Tier 6"].  The
    roster module is not part of the sources; its entries are taken as
    dictionaries of strings. *)
Abbreviation team := (gmap string string).

(** The dict comprehension that ends [fetch_live_scores]:
    [{p["full_name"].strip().lower(): p for p in player_data}]. *)
Fixpoint index_players (player_data : list player) (acc : feed_index)
  : res feed_index :=
  match player_data with
  | [] => Ret acc
  | p :: rest =>
      full_name ← getitem p "full_name";
      key ← strip_lower_method full_name;
      index_players rest (<[key := p]> acc)
  end.

(** [fetch_live_scores].  [response] stands for the request, the decoding
    of its body and the choice of the envelope: the exception that one of
    them raised, or the list of player records that was found.  An
    unrecognised envelope gives the same [{}] as the empty list. *)
Definition fetch_live_scores (response : res (list player)) : res feed_index :=
  player_data ← response;
  index_players player_data ∅.

Definition normalize_topar (val : value) : res (option Z) :=
  if eq_str val "E" then Ret (Some 0)
  else try_except (n ← int val; Ret (Some n)) (λ _, Ret None).

(** What [get_player_score] returns: a pair on the first [return], a triple
    on the second. *)
Inductive score_tuple :=
| Tuple2 (score : option Z) (status : value)
| Tuple3 (score : option Z) (status : value) (pid : value).

Definition get_player_score (name : string) (data : feed_index)
  : res score_tuple :=
  let key := lower (strip name) in
  match data !! key with
  | None => Ret (Tuple2 None (PStr "NOT FOUND"))
  | Some p =>
      if not_dict p then Ret (Tuple2 None (PStr "NOT FOUND"))
      else
        let status := get p "status" (PStr "OK") in
        let topar := get p "topar" PNone in
        score ← normalize_topar topar;
        Ret (Tuple3 score status (get p "id" PNone))
  end.

(** The list comprehension under [max] (lines 83-87); [normalize_topar] is
    called twice on the same token there, once is enough here. *)
Fixpoint normalizable_scores (players : list player) : res (list Z) :=
  match players with
  | [] => Ret []
  | p :: rest =>
      score ← normalize_topar (get p "topar" PNone);
      tail ← normalizable_scores rest;
      Ret (match score with Some n => n :: tail | None => tail end)
  end.

Definition worst_score (live_data : feed_index) : res Z :=
  pool ← normalizable_scores (values live_data);
  Py.max pool.

(** [score, status, pid = ...]: unpacking into three targets. *)
Definition unpack3 (t : score_tuple) : res (option Z * value * value) :=
  match t with
  | Tuple3 score status pid => Ret (score, status, pid)
  | Tuple2 _ _ => Raise ValueError
  end.

(** The score cell of a player: the cut-score span around the penalty, or
    the plain score. *)
Inductive display_score :=
| CutScore (adjusted : Z)
| PlainScore (score : Z).

(** Lines 102-107: [if score is None or status.upper() == "C"]; the method
    call is reached only when [score] is an integer. *)
Definition adjust (worst : Z) (score : option Z) (status : value)
  : res (Z * display_score) :=
  match score with
  | None => Ret (worst, CutScore worst)
  | Some n =>
      u ← upper_method status;
      if bool_decide (u = "C"%string) then Ret (worst, CutScore worst)
      else Ret (n, PlainScore n)
  end.

(** A cell of [row["Players"]], without its markup: the id that selects the
    image, the name, the score shown. *)
Record cell := Cell {
  player_img : value;
  cell_name : string;
  cell_score : display_score
}.

Record row := Row {
  Team : string;
  Players : list cell;
  AdjustedScores : list Z;
  Total : Z
}.

Definition tier_key (i : nat) : string := "Tier " +:+ pretty i.

(** One turn of the inner loop (lines 96-111): the cell, and the pair
    appended to [all_player_scores]. *)
Definition score_slot (t : team) (live_data : feed_index) (worst : Z)
  (i : nat) : res (cell * (string * Z)) :=
  raw ← getitem t (tier_key i);
  let name := strip raw in
  tuple ← get_player_score name live_data;
  '(score, status, pid) ← unpack3 tuple;
  '(adjusted, shown) ← adjust worst score status;
  Ret (Cell pid name shown, (name, adjusted)).

(** One turn of the outer loop (lines 94-114); [range(1, 7)] is [seq 1 6]. *)
Definition score_team (live_data : feed_index) (worst : Z) (t : team)
  : res (row * list (string * Z)) :=
  person ← getitem t "Person";
  slots ← mapM (score_slot t live_data worst) (seq 1 6);
  let adjusted := slots.*2.*2 in
  Ret (Row person slots.*1 adjusted (sum (take 5 (sorted id adjusted))),
       slots.*2).

(** Lines 83-117: the worst score, then every team, then the sort. *)
Definition aggregate (teams_data : list team) (live_data : feed_index)
  : res (list row * list (string * Z)) :=
  worst ← worst_score live_data;
  scored ← mapM (score_team live_data worst) teams_data;
  Ret (sorted Total scored.*1, concat scored.*2).

(** How a run of the script ends: stopped by the guard after [st.error], an
    exception nobody catches, or the table of line 131 rendered from the
    sorted leaderboard (the sidebar after it is not modelled). *)
Inductive outcome :=
| Stopped (message : string)
| Uncaught (e : exn)
| Rendered (leaderboard : list row) (all_player_scores : list (string * Z)).

Definition guarded (teams_data : list team) (live_data : feed_index)
  : outcome :=
  if not_dict live_data then Stopped "Could not fetch live Masters data."
  else match aggregate teams_data live_data with
       | Raise e => Uncaught e
       | Ret (leaderboard, all_player_scores) =>
           Rendered leaderboard all_player_scores
       end.

(** The script from line 77 on, given what the request brought. *)
Definition script (teams_data : list team) (response : res (list player))
  : outcome :=
  match fetch_live_scores response with
  | Raise e => Uncaught e
  | Ret live_data => guarded teams_data live_data
  end.

(** ** The integer literals of [int]

    The grammar that the documentation of [int] gives for a string
    argument: optional blanks, an optional sign, decimal digits with single
    underscores between digits, optional blanks.  It is stated on its own,
    to be compared with [int_of_str]. *)

Fixpoint spaces (s : string) : bool :=
  match s with
  | EmptyString => true
  | String c r => c_isspace c && spaces r
  end.

(** What may follow a digit: nothing, a digit, or an underscore and a digit. *)
Inductive digit_tail : string → Prop :=
| tail_end : digit_tail EmptyString
| tail_digit c r : isdigit c → digit_tail r → digit_tail (String c r)
| tail_underscore c r :
    isdigit c → digit_tail r → digit_tail (String "_" (String c r)).

Inductive digits : string → Prop :=
| digits_first c r : isdigit c → digit_tail r → digits (String c r).

(** The number that the digits of [s] write in base ten, after [acc]. *)
Fixpoint decimal (s : string) (acc : Z) : Z :=
  match s with
  | EmptyString => acc
  | String c r => decimal r (if isdigit c then 10 * acc + digit_value c else acc)
  end.

Inductive sign_of : string → Z → Prop :=
| sign_absent : sign_of EmptyString 1
| sign_plus : sign_of "+" 1
| sign_minus : sign_of "-" (-1).

Definition int_literal (s : string) (n : Z) : Prop :=
  ∃ ws1 sg k body ws2,
    s = ws1 +:+ sg +:+ body +:+ ws2 ∧
    spaces ws1 ∧ spaces ws2 ∧ sign_of sg k ∧ digits body ∧
    n = k * decimal body 0.

(** A string within the limit on the digits that [int] converts. *)
Definition within_limit (s : string) : Prop :=
  digit_count s ≤ int_max_str_digits.

Fixpoint all_chars (P : ascii → bool) (s : string) : bool :=
  match s with
  | EmptyString => true
  | String c r => P c && all_chars P r
  end.

Fixpoint some_char (P : ascii → bool) (s : string) : bool :=
  match s with
  | EmptyString => false
  | String c r => P c || some_char P r
  end.

(** ASCII text: every character has a code below 128. *)
Definition is_ascii (c : ascii) : bool := (code c <? 128)%N.

Definition ascii_text (s : string) : Prop := all_chars is_ascii s.

(** The characters an integer literal is made of. *)
Definition literal_char (c : ascii) : bool :=
  isdigit c || Ascii.eqb c "_" || Ascii.eqb c "+" || Ascii.eqb c "-"
  || c_isspace c.

(** The letter of the even-par token, in either case. *)
Definition even_par_letter (c : ascii) : bool :=
  Ascii.eqb c "E" || Ascii.eqb c "e".

(** The value of [normalize_topar], which never raises (see
    [normalize_topar_total]). *)
Definition normalized (val : value) : option Z :=
  match normalize_topar val with
  | Ret score => score
  | Raise _ => None
  end.

(** The normalized to-par of a feed record, [None] when unavailable. *)
Definition topar_score (p : player) : option Z :=
  normalized (get p "topar" PNone).

(** A record of the index with an integer to-par. *)
Definition resolvable (live_data : feed_index) (n : Z) : Prop :=
  ∃ key p, live_data !! key = Some p ∧ topar_score p = Some n.

(** The key under which the comprehension of [fetch_live_scores] files a
    record, when the record has a textual name. *)
Definition record_key (p : player) : option string :=
  match p !! "full_name"%string with
  | Some (PStr full_name) => Some (lower (strip full_name))
  | _ => None
  end.

(** A remainder at which the digit scan of [int] stops. *)
Definition stops_scan (rest : string) : Prop :=
  match rest with
  | EmptyString => True
  | String c _ => isdigit c = false ∧ Ascii.eqb c "_" = false
  end.

(** The order of the keys, on the elements. *)
Definition key_le {A} (key : A → Z) (a b : A) : Prop := key a ≤ key b.

(** An outcome that shows no leaderboard: the run ended on an error. *)
Definition fatal (o : outcome) : Prop :=
  match o with
  | Rendered _ _ => False
  | Stopped _ | Uncaught _ => True
  end.

(** A record with a textual name: one the comprehension of
    [fetch_live_scores] can file. *)
Definition named (p : player) : Prop := is_Some (record_key p).

(** What [p["full_name"].strip().lower()] raises on a record that is not
    [named]: the subscript fails on a missing key, the method on a name that
    is not text. *)
Definition naming_error (p : player) : exn :=
  match p !! "full_name"%string with
  | None => KeyError
  | Some _ => AttributeError
  end.

(** What a turn of the inner loop needs in order to return: the slot is in
    the team, its name leads to a record with fields, and the status is text
    unless the to-par has no integer. *)
Definition slot_resolves (live_data : feed_index) (t : team) (i : nat) : Prop :=
  ∃ raw p,
    t !! tier_key i = Some raw ∧
    live_data !! lower (strip raw) = Some p ∧ not_dict p = false ∧
    (topar_score p = None ∨ ∃ st, get p "status" (PStr "OK") = PStr st).

(** The six entries of a team, tier by tier ([None] where the team has no
    such tier). *)
Definition picks (t : team) : list (option string) :=
  (λ i, t !! tier_key i) <$> seq 1 6.

(** ** The sidebar (lines 134-148) *)

(** [min(l, key=key)]: the first element whose key none undercuts. *)
Definition min_by {A} (key : A → Z) (l : list A) : res A :=
  match l with
  | [] => Raise ValueError
  | x :: rest =>
      Ret (foldl (λ best y, if decide (key y < key best) then y else best)
                 x rest)
  end.

(** [counts[name] += 1] on a [defaultdict(int)]; the entries stay in the
    order in which their names came first. *)
Fixpoint bump (name : string) (counts : list (string * nat))
  : list (string * nat) :=
  match counts with
  | [] => [(name, 1%nat)]
  | (n, c) :: rest =>
      if decide (n = name) then (n, S c) :: rest
      else (n, c) :: bump name rest
  end.

(** [tier_counts[tier][name] += 1] on the [defaultdict] of such
    dictionaries. *)
Fixpoint bump_tier (tier name : string)
  (tier_counts : list (string * list (string * nat)))
  : list (string * list (string * nat)) :=
  match tier_counts with
  | [] => [(tier, [(name, 1%nat)])]
  | (t, counts) :: rest =>
      if decide (t = tier) then (t, bump name counts) :: rest
      else (t, counts) :: bump_tier tier name rest
  end.

(** The inner and the outer loop of lines 140-143. *)
Fixpoint count_tiers (t : team) (tiers : list nat)
  (tier_counts : list (string * list (string * nat)))
  : res (list (string * list (string * nat))) :=
  match tiers with
  | [] => Ret tier_counts
  | i :: rest =>
      raw ← getitem t (tier_key i);
      count_tiers t rest (bump_tier (tier_key i) (strip raw) tier_counts)
  end.

Fixpoint count_teams (teams_data : list team)
  (tier_counts : list (string * list (string * nat)))
  : res (list (string * list (string * nat))) :=
  match teams_data with
  | [] => Ret tier_counts
  | t :: rest =>
      counted ← count_tiers t (seq 1 6) tier_counts;
      count_teams rest counted
  end.

Definition count_picks (teams_data : list team)
  : res (list (string * list (string * nat))) :=
  count_teams teams_data [].

(** [tier_counts[tier]] for a tier that was counted, and [counts.get(name, 0)]. *)
Fixpoint counts_of (tier : string)
  (tier_counts : list (string * list (string * nat))) : list (string * nat) :=
  match tier_counts with
  | [] => []
  | (t, counts) :: rest =>
      if decide (t = tier) then counts else counts_of tier rest
  end.

Fixpoint count_of (name : string) (counts : list (string * nat)) : nat :=
  match counts with
  | [] => 0
  | (n, c) :: rest => if decide (n = name) then c else count_of name rest
  end.

(** [sorted(l)] for strings, which Python compares by code point. *)
Fixpoint insert_str (x : string) (l : list string) : list string :=
  match l with
  | [] => [x]
  | y :: rest => if String.leb x y then x :: l else y :: insert_str x rest
  end.

Definition sorted_str (l : list string) : list string := foldr insert_str [] l.

(** Lines 144-148: the tiers in sorted order, each with its entries sorted
    by [-count]. *)
Definition listing (tier_counts : list (string * list (string * nat)))
  : list (string * list (string * nat)) :=
  (λ tier, (tier, sorted (λ entry : string * nat, - Z.of_nat entry.2)
                         (counts_of tier tier_counts)))
  <$> sorted_str tier_counts.*1.

(** What the sidebar shows: the leader, the best player, the picks. *)
Record summary := Summary {
  leader : string;
  best_player : string * Z;
  tier_picks : list (string * list (string * nat))
}.

(** The exceptions of the sidebar: those of the builtins, and the one of
    [leaderboard[0]] on an empty list. *)
Inductive sidebar_exn :=
| IndexError
| Builtin (e : exn).

Inductive sidebar_outcome :=
| Shown (s : summary)
| Failed (e : sidebar_exn).

(** The sidebar, run on what lines 89-117 left: it is reached after the
    table of the leaderboard has been rendered. *)
Definition sidebar (teams_data : list team) (leaderboard : list row)
  (all_player_scores : list (string * Z)) : sidebar_outcome :=
  match leaderboard with
  | [] => Failed IndexError
  | first :: _ =>
      match min_by snd all_player_scores with
      | Raise e => Failed (Builtin e)
      | Ret best =>
          match count_picks teams_data with
          | Raise e => Failed (Builtin e)
          | Ret tier_counts =>
              Shown (Summary (Team first) best (listing tier_counts))
          end
      end
  end.

(** The trimmed entry of a team for a tier. *)
Definition pick (t : team) (i : nat) : option string :=
  strip <$> t !! tier_key i.

(** The names of a list in the order in which they come first. *)
Definition first_seen (names : list string) : list string :=
  foldl (λ seen n, if decide (n ∈ seen) then seen else seen ++ [n]) [] names.

(** [x], at index [i] of [l], has the least key of [l] and is the first
    to have it. *)
Definition first_least {A} (key : A → Z) (l : list A) (i : nat) (x : A)
  : Prop :=
  l !! i = Some x ∧
  ∀ j y, l !! j = Some y → key x ≤ key y ∧ (key y = key x → (i ≤ j)%nat).

(** A team with its six tiers. *)
Definition complete (t : team) : Prop :=
  ∀ i, i ∈ seq 1 6 → is_Some (t !! tier_key i).

(** ** The envelope of the feed (lines 51-58) *)

(** The dictionary that the items of a [PDict] make; the keys of the items
    are distinct. *)
Definition items (d : list (string * value)) : gmap string value :=
  list_to_map d.

(** [sub in s] for two strings: [sub] is a part of [s]. *)
Fixpoint occurs (sub s : string) : bool :=
  String.prefix sub s ||
  match s with
  | EmptyString => false
  | String _ r => occurs sub r
  end.

(** [k in v] for a string [k]: a key of a dictionary, an element of a list,
    a part of a string; the other values are no containers. *)
Definition contains (k : string) (v : value) : res bool :=
  match v with
  | PDict d => Ret (bool_decide (is_Some (items d !! k)))
  | PList l => Ret (existsb (λ x, eq_str x k) l)
  | PStr s => Ret (occurs k s)
  | PNone | PBool _ | PInt _ | PFloat _ => Raise TypeError
  end.

(** [v[k]] for a string [k]: only a dictionary takes it. *)
Definition subscript (v : value) (k : string) : res value :=
  match v with
  | PDict d => getitem (items d) k
  | _ => Raise TypeError
  end.

(** [for p in v]: the elements of a list, the keys of a dictionary, the
    characters of a string. *)
Definition iterate (v : value) : res (list value) :=
  match v with
  | PList l => Ret l
  | PDict d => Ret (PStr <$> d.*1)
  | PStr s => Ret ((λ c, PStr (String c EmptyString)) <$> list_ascii_of_string s)
  | PNone | PBool _ | PInt _ | PFloat _ => Raise TypeError
  end.

(** Lines 52-57: the list of players of the decoded body, [None] on the
    branch that returns [{}]. *)
Definition select_players (data : value) : res (option value) :=
  has_data ← contains "data" data;
  nested ← (if has_data : bool
            then inner ← subscript data "data"; contains "player" inner
            else Ret false);
  if nested : bool then
    inner ← subscript data "data";
    player_data ← subscript inner "player";
    Ret (Some player_data)
  else
    flat ← contains "player" data;
    if flat : bool then
      player_data ← subscript data "player";
      Ret (Some player_data)
    else Ret None.

(** The comprehension of line 58 over any values: [p["full_name"]] needs a
    dictionary. *)
Fixpoint index_values (player_data : list value) (acc : feed_index)
  : res feed_index :=
  match player_data with
  | [] => Ret acc
  | PDict d :: rest =>
      full_name ← getitem (items d) "full_name";
      key ← strip_lower_method full_name;
      index_values rest (<[key := items d]> acc)
  | _ :: _ => Raise TypeError
  end.

(** [fetch_live_scores] from the decoded body on; [decoded] stands for the
    request and [res.json()]: the exception of one of them, or the value
    that was decoded. *)
Definition fetch_live_scores_json (decoded : res value) : res feed_index :=
  data ← decoded;
  selected ← select_players data;
  match selected with
  | None => Ret ∅
  | Some player_data =>
      elements ← iterate player_data;
      index_values elements ∅
  end.

(** The script from the decoded body on. *)
Definition script_json (teams_data : list team) (decoded : res value)
  : outcome :=
  match fetch_live_scores_json decoded with
  | Raise e => Uncaught e
  | Ret live_data => guarded teams_data live_data
  end.

(** The nested envelope: [data["data"]] is a dictionary that has
    ["player"]. *)
Definition nested (d : list (string * value)) (player_data : value) : Prop :=
  ∃ inner, items d !! "data"%string = Some (PDict inner) ∧
           items inner !! "player"%string = Some player_data.

(** No nested envelope, and no exception in looking for it: there is no
    ["data"], or it is a container without ["player"]. *)
Definition no_nested (d : list (string * value)) : Prop :=
  items d !! "data"%string = None ∨
  ∃ v, items d !! "data"%string = Some v ∧ contains "player" v = Ret false.

(** A body in which line 52 to 56 find no envelope and raise nothing. *)
Definition unrecognised (data : value) : Prop :=
  contains "player" data = Ret false ∧
  (contains "data" data = Ret false ∨
   ∃ d, data = PDict d ∧ no_nested d).

(** A list of players over which the comprehension makes no turn. *)
Definition no_players (player_data : value) : Prop :=
  player_data = PList [] ∨ player_data = PDict [] ∨
  player_data = PStr EmptyString.

(** A value that is no container: [null], a boolean, a number. *)
Definition scalar (v : value) : Prop :=
  match v with
  | PNone | PBool _ | PInt _ | PFloat _ => True
  | PStr _ | PList _ | PDict _ => False
  end.

(** ** Sample data *)

Definition mk_player (full_name topar status : string) : player :=
  list_to_map [("full_name"%string, PStr full_name);
               ("topar"%string, PStr topar);
               ("status"%string, PStr status);
               ("id"%string, PStr "1")].

Definition mk_team (person a b c d e f : string) : team :=
  list_to_map [("Person"%string, person); ("Tier 1"%string, a);
               ("Tier 2"%string, b); ("Tier 3"%string, c);
               ("Tier 4"%string, d); ("Tier 5"%string, e);
               ("Tier 6"%string, f)].

Definition sample_feed : list player :=
  [mk_player "A" "E" "OK"; mk_player "B" "-3" "OK"; mk_player "C" "5" "C"].

Definition sample_index : feed_index :=
  list_to_map [("a"%string, mk_player "A" "E" "OK");
               ("b"%string, mk_player "B" "-3" "OK");
               ("c"%string, mk_player "C" "5" "C")].

(** A roster on the sample feed: every name resolves, some after trimming
    and lower-casing. *)
Definition sample_team : team := mk_team "Ann" "A" "B" "C" "a" " b" "C ".

(** The same roster with a name the feed does not have. *)
Definition team_with_stranger : team :=
  mk_team "Ann" "A" "B" "C" "A" "B" "Zed".

(** A feed whose only record has no integer to-par. *)
Definition feed_without_scores : list player := [mk_player "A" "-" "OK"].

Definition index_without_scores : feed_index :=
  {[ "a"%string := mk_player "A" "-" "OK" ]}.

(** A feed of one player, who is not cut, and a team of six of them. *)
Definition single_index : feed_index :=
  {[ "a"%string := mk_player "A" "5" "OK" ]}.

Definition team_of_one : team := mk_team "Ann" "A" "A" "A" "A" "A" "A".

(** A roster of three teams on the sample feed; the first and the third
    have the same total. *)
Definition sample_roster : list team :=
  [sample_team; mk_team "Bob" "B" "B" "B" "B" "B" "B";
   mk_team "Cat" "C" "c" "A" "a" "B" "b"].


(** A record whose name is a number, and a record without a name. *)
Definition numbered_player : player :=
  list_to_map [("full_name"%string, PInt 7); ("topar"%string, PStr "1")].

Definition nameless_player : player :=
  list_to_map [("topar"%string, PStr "1")].

(** A record whose status is [null], with and without an integer to-par,
    and a team that picks both. *)
Definition null_status_player (full_name topar : string) : player :=
  list_to_map [("full_name"%string, PStr full_name);
               ("topar"%string, PStr topar);
               ("status"%string, PNone)].

Definition null_status_index : feed_index :=
  list_to_map [("d"%string, null_status_player "D" "2");
               ("w"%string, null_status_player "W" "WD")].

Definition null_status_team : team := mk_team "Dan" "D" "W" "D" "W" "D" "W".

(** The sample team with its picks in another order of tiers. *)
Definition shuffled_team : team := mk_team "Ann" "C " " b" "a" "C" "B" "A".

(** A team whose six players are cut. *)
Definition cut_team : team := mk_team "Cy" "C" "c" " C" "C " "c " " c ".

(** Decoded bodies: the two envelopes, both at once, and a body whose
    ["data"] is [null] beside a list of players. *)
Definition sample_objects : list (list (string * value)) :=
  [[("full_name"%string, PStr "A"); ("topar"%string, PStr "E")];
   [("full_name"%string, PStr " B "); ("topar"%string, PStr "-3")]].

Definition sample_records : list value := PDict <$> sample_objects.

Definition nested_body : value :=
  PDict [("data"%string, PDict [("player"%string, PList sample_records)])].

Definition flat_body : value :=
  PDict [("player"%string, PList sample_records)].

Definition double_body : value :=
  PDict [("player"%string, PList []);
         ("data"%string, PDict [("player"%string, PList sample_records)])].

Definition null_data_body : value :=
  PDict [("data"%string, PNone); ("player"%string, PList sample_records)].

(** A string of [k] nines. *)
Definition nines (k : nat) : string :=
  string_of_list_ascii (replicate k "9"%char).

(** The builtins on the inputs that tell the variants apart; FS (code 28)
    is a blank for [strip] and not for [int]. *)
Example int_samples :
  int_of_str (String (ascii_of_nat 28) "3") = Raise ValueError ∧
  strip (String (ascii_of_nat 28) "a") = "a"%string ∧
  int_of_str " +3 " = Ret 3 ∧ int_of_str "1_0" = Ret 10 ∧
  int_of_str "_1" = Raise ValueError ∧ int_of_str "1__0" = Raise ValueError ∧
  int_of_str "- 3" = Raise ValueError ∧ int_of_str EmptyString = Raise ValueError ∧
  int_of_str "-00_1" = Ret (-1) ∧ int_of_str "1 2" = Raise ValueError ∧
  str (-120) = "-120"%string ∧ strip "  a b  " = "a b"%string ∧
  lower "Tiger Woods" = "tiger woods"%string.
Proof. vm_compute. repeat split. Qed.

(** The limit on the digits counts leading zeros and no underscore; a
    float is cut towards zero. *)
Example int_limit_samples :
  int_of_str (nines 4300) = Ret (10 ^ 4300 - 1) ∧
  int_of_str (nines 4301) = Raise ValueError ∧
  int_of_str ("-0" +:+ nines 4299) = Ret (- (10 ^ 4299 - 1)) ∧
  int_of_str (" +0_0" +:+ nines 4299 +:+ " ") = Raise ValueError ∧
  int (PFloat (Finite 19 10)) = Ret 1 ∧
  int (PFloat (Finite (-19) 10)) = Ret (-1) ∧
  int (PFloat (Finite (-1) 2)) = Ret 0 ∧
  int (PFloat NaN) = Raise ValueError ∧
  int (PFloat (Infinity true)) = Raise OverflowError ∧
  normalize_topar (PFloat (Finite 19 10)) = Ret (Some 1) ∧
  normalize_topar (PFloat (Infinity false)) = Ret None.
Proof. vm_compute. repeat split. Qed.


(** ** Strings: [strip] and [lower] *)

Section StringFacts.





Lemma lower_empty s : lower s = EmptyString ↔ s = EmptyString.
Proof. by destruct s. Qed.



Lemma lstrip_idemp s : lstrip (lstrip s) = lstrip s.
Proof.
  induction s as [|c s IH]; simpl; [done|].
  destruct (isspace c) eqn:E; [done|]. simpl. by rewrite E.
Qed.

Lemma rstrip_idemp s : rstrip (rstrip s) = rstrip s.
Proof.
  induction s as [|c s IH]; simpl; [done|].
  destruct (rstrip s) as [|d r] eqn:E.
  - destruct (isspace c) eqn:Ec; simpl; [done|]. by rewrite Ec.
  - change (rstrip (String c (String d r))) with
      (match rstrip (String d r) with
       | EmptyString => if isspace c then EmptyString else String c EmptyString
       | r' => String c r' end).
    by rewrite IH.
Qed.

Lemma rstrip_lstrip s : rstrip (lstrip s) = lstrip (rstrip s).
Proof.
  induction s as [|c s IH]; simpl; [done|].
  destruct (isspace c) eqn:Ec.
  - rewrite IH. destruct (rstrip s); simpl; by rewrite ?Ec.
  - simpl. destruct (rstrip s); simpl; by rewrite Ec.
Qed.

Lemma strip_idemp s : strip (strip s) = strip s.
Proof.
  unfold strip. by rewrite rstrip_lstrip, lstrip_idemp, rstrip_idemp.
Qed.


(** [status.upper() == "C"] holds for the two spellings of the letter. *)
Lemma upper_is_C s :
  upper s = "C"%string ↔ s = "C"%string ∨ s = "c"%string.
Proof.
  split.
  - destruct s as [|c [|d r]]; simpl; [done| |done].
    destruct c as [[] [] [] [] [] [] [] []]; (by auto) || by inversion 1.
  - by intros [-> | ->].
Qed.

End StringFacts.

(** ** [int] on strings accepts exactly the integer literals within the limit *)

Section IntFacts.

Lemma digit_not_space c : isdigit c → c_isspace c = false.
Proof. by destruct c as [[] [] [] [] [] [] [] []]. Qed.

Lemma digit_not_sign c :
  isdigit c → Ascii.eqb c "+" = false ∧ Ascii.eqb c "-" = false.
Proof. by destruct c as [[] [] [] [] [] [] [] []]. Qed.

Lemma digit_not_underscore c : isdigit c → Ascii.eqb c "_" = false.
Proof. by destruct c as [[] [] [] [] [] [] [] []]. Qed.

Lemma space_not_digit c :
  c_isspace c → isdigit c = false ∧ Ascii.eqb c "_" = false.
Proof. by destruct c as [[] [] [] [] [] [] [] []]. Qed.

Lemma app_assoc_str (a b c : string) : (a +:+ b) +:+ c = a +:+ b +:+ c.
Proof. induction a as [|x a IH]; simpl; [done|by f_equal]. Qed.

Lemma skip_space_spaces ws s : spaces ws → skip_space (ws +:+ s) = skip_space s.
Proof.
  induction ws as [|c ws IH]; simpl; [done|].
  intros [Hc Hws]%andb_prop_elim. destruct (c_isspace c); [auto|done].
Qed.

Lemma skip_space_split s : ∃ ws, s = ws +:+ skip_space s ∧ spaces ws.
Proof.
  induction s as [|c s (ws & Hs & Hws)]; simpl.
  - by exists EmptyString.
  - destruct (c_isspace c) eqn:Ec.
    + exists (String c ws). simpl. rewrite Ec. split; [congruence|done].
    + by exists EmptyString.
Qed.

Lemma skip_space_empty s : skip_space s = EmptyString ↔ spaces s.
Proof.
  induction s as [|c s IH]; simpl; [done|].
  destruct (c_isspace c); simpl; [done|]. split; [done|by intros []].
Qed.

Lemma skip_space_head c r : c_isspace c = false → skip_space (String c r) = String c r.
Proof. simpl. by intros ->. Qed.

(** What a successful scan consumed is a run of digits, and its result
    is the number the run writes. *)
Lemma scan_digits_sound s : ∀ prev acc n rest,
  scan_digits s prev acc = Some (n, rest) →
  ∃ b, s = b +:+ rest ∧ n = decimal b acc ∧
       if prev then digit_tail b else digits b.
Proof.
  induction s as [|c s IH]; intros prev acc n rest; simpl.
  - destruct prev; [|done]. intros [= <- <-].
    exists EmptyString. repeat split. constructor.
  - destruct (isdigit c) eqn:Ed.
    + intros (b & -> & -> & Hb)%IH.
      exists (String c b). simpl. rewrite Ed. repeat split.
      destruct prev; constructor; by rewrite ?Ed.
    + destruct (Ascii.eqb c "_") eqn:Eu.
      * destruct prev; [|done].
        apply Ascii.eqb_eq in Eu as ->.
        intros (b & -> & -> & Hb)%IH. inversion Hb as [d r Hd Hr]; subst.
        exists (String "_" (String d r)). repeat split. by constructor.
      * destruct prev; [|done]. intros [= <- <-].
        exists EmptyString. repeat split. constructor.
Qed.

(** Conversely a run of digits is consumed whole, when what follows
    cannot continue it. *)
Lemma scan_digits_tail b : ∀ rest acc,
  digit_tail b → stops_scan rest →
  scan_digits (b +:+ rest) true acc = Some (decimal b acc, rest).
Proof.
  intros rest acc Hb. revert acc.
  induction Hb as [|c r Hc _ IH|c r Hc _ IH]; intros acc Hrest; simpl.
  - destruct rest as [|c r]; [done|]. simpl in *.
    destruct Hrest as [-> ->]. done.
  - destruct (isdigit c); [|done]. by apply IH.
  - destruct (isdigit c); [|done]. by apply IH.
Qed.

Lemma scan_digits_complete b rest :
  digits b → stops_scan rest →
  scan_digits (b +:+ rest) false 0 = Some (decimal b 0, rest).
Proof.
  intros [c r Hc Hr] Hrest. simpl.
  destruct (isdigit c); [|done]. by apply scan_digits_tail.
Qed.

Lemma spaces_stop ws : spaces ws → stops_scan ws.
Proof.
  destruct ws as [|c r]; simpl; [done|].
  intros [Hc _]%andb_prop_elim. by apply space_not_digit.
Qed.

Lemma take_sign_spec sg k c r :
  sign_of sg k → isdigit c → take_sign (sg +:+ String c r) = (k, String c r).
Proof.
  intros Hsg Hc. destruct Hsg; simpl; [|done..].
  by destruct (digit_not_sign c Hc) as [-> ->].
Qed.

Lemma take_sign_split s k body :
  take_sign s = (k, body) → ∃ sg, s = sg +:+ body ∧ sign_of sg k.
Proof.
  destruct s as [|c r]; simpl.
  - intros [= <- <-]. exists EmptyString. split; [done|constructor].
  - destruct (Ascii.eqb c "+") eqn:Ep; [|destruct (Ascii.eqb c "-") eqn:Em].
    + apply Ascii.eqb_eq in Ep as ->. intros [= <- <-].
      exists "+"%string. split; [done|constructor].
    + apply Ascii.eqb_eq in Em as ->. intros [= <- <-].
      exists "-"%string. split; [done|constructor].
    + intros [= <- <-]. exists EmptyString. split; [done|constructor].
Qed.

(** Blanks and signs have no digit. *)
Lemma digit_count_app a b : digit_count (a +:+ b) = digit_count a + digit_count b.
Proof. induction a as [|c a IH]; simpl; [done|]. rewrite IH. lia. Qed.

Lemma digit_count_spaces ws : spaces ws → digit_count ws = 0.
Proof.
  induction ws as [|c ws IH]; simpl; [done|].
  intros [Hc Hws]%andb_prop_elim.
  destruct (space_not_digit c Hc) as [-> _]. by rewrite IH.
Qed.

Lemma digit_count_sign sg k : sign_of sg k → digit_count sg = 0.
Proof. by destruct 1. Qed.

Lemma digit_count_nonneg s : 0 ≤ digit_count s.
Proof. induction s as [|c s IH]; simpl; [done|]. destruct (isdigit c); lia. Qed.

(** The digits of a literal are those of its body. *)
Lemma digit_count_literal ws1 sg k body ws2 :
  spaces ws1 → spaces ws2 → sign_of sg k →
  digit_count (ws1 +:+ sg +:+ body +:+ ws2) = digit_count (body +:+ ws2) ∧
  digit_count (body +:+ ws2) = digit_count body.
Proof.
  intros H1 H2 Hsg. rewrite !digit_count_app.
  rewrite (digit_count_spaces ws1), (digit_count_spaces ws2) by done.
  rewrite (digit_count_sign sg k) by done. lia.
Qed.

Lemma int_of_str_literal s n :
  int_literal s n → within_limit s → int_of_str s = Ret n.
Proof.
  intros (ws1 & sg & k & body & ws2 & -> & H1 & H2 & Hsg & Hb & ->) Hlimit.
  unfold within_limit in Hlimit.
  destruct (digit_count_literal ws1 sg k body ws2 H1 H2 Hsg) as [Hcount _].
  rewrite Hcount in Hlimit.
  pose proof (scan_digits_complete body ws2 Hb (spaces_stop ws2 H2)) as Hscan.
  destruct Hb as [c r Hc Hr].
  unfold int_of_str. rewrite skip_space_spaces by done.
  assert (skip_space (sg +:+ String c r +:+ ws2)
          = sg +:+ String c (r +:+ ws2)) as ->.
  { destruct Hsg; simpl; [|done..]. by rewrite digit_not_space. }
  rewrite (take_sign_spec sg k c (r +:+ ws2)) by done.
  change (String c (r +:+ ws2)) with (String c r +:+ ws2).
  rewrite Hscan. apply skip_space_empty in H2 as ->.
  by rewrite decide_True.
Qed.

Lemma int_of_str_Ret s n :
  int_of_str s = Ret n → int_literal s n ∧ within_limit s.
Proof.
  unfold int_of_str.
  destruct (skip_space_split s) as (ws1 & Hs & Hws1).
  destruct (take_sign (skip_space s)) as [k body] eqn:Hsign.
  apply take_sign_split in Hsign as (sg & Hsg & Hk).
  destruct (scan_digits body false 0) as [[m rest]|] eqn:Hscan; [|done].
  apply scan_digits_sound in Hscan as (b & -> & -> & Hb).
  destruct (skip_space rest) eqn:Hrest; [|done].
  case_decide as Hlimit; [|done].
  intros [= <-]. apply skip_space_empty in Hrest.
  assert (s = ws1 +:+ sg +:+ b +:+ rest) as Hparts.
  { by rewrite Hs at 1; rewrite Hsg. }
  split.
  - exists ws1, sg, k, b, rest. by repeat split.
  - unfold within_limit. rewrite Hparts.
    by destruct (digit_count_literal ws1 sg k b rest Hws1 Hrest Hk) as [-> _].
Qed.

Lemma int_of_str_spec s n :
  int_of_str s = Ret n ↔ int_literal s n ∧ within_limit s.
Proof.
  split; [apply int_of_str_Ret|]. intros [??]. by apply int_of_str_literal.
Qed.

(** [int] of a string raises nothing but [ValueError]. *)
Lemma int_of_str_Raise s e : int_of_str s = Raise e → e = ValueError.
Proof.
  unfold int_of_str. destruct (take_sign _) as [k body].
  destruct (scan_digits _ _ _) as [[m rest]|]; [|congruence].
  destruct (skip_space rest); [|congruence]. case_decide; congruence.
Qed.

Lemma app_empty_r (a : string) : a +:+ EmptyString = a.
Proof. induction a as [|x a IH]; simpl; [done|by f_equal]. Qed.

Lemma decimal_app d s acc : decimal (d +:+ s) acc = decimal s (decimal d acc).
Proof. revert acc. induction d as [|c d IH]; intros acc; simpl; [done|apply IH]. Qed.

Lemma digit_tail_snoc d c :
  digit_tail d → isdigit c → digit_tail (d +:+ String c EmptyString).
Proof.
  intros Hd Hc. induction Hd; simpl; by repeat constructor.
Qed.

Lemma digits_snoc d c : digits d → isdigit c → digits (d +:+ String c EmptyString).
Proof.
  intros [x r Hx Hr] Hc. simpl. constructor; [done|by apply digit_tail_snoc].
Qed.

Lemma pretty_N_char_digit x :
  (x < 10)%N →
  isdigit (pretty_N_char x) ∧ digit_value (pretty_N_char x) = Z.of_N x.
Proof.
  intros Hx.
  assert (x = 0 ∨ x = 1 ∨ x = 2 ∨ x = 3 ∨ x = 4 ∨ x = 5 ∨ x = 6 ∨ x = 7
          ∨ x = 8 ∨ x = 9)%N as Hcases by lia.
  by repeat (destruct Hcases as [->|Hcases]); subst.
Qed.

(** What [pretty_N_go x] puts in front of its argument: the digits of
    [x], most significant first. *)
Lemma pretty_N_go_digits x :
  ∃ d, (∀ s, pretty_N_go x s = d +:+ s) ∧ digit_tail d ∧
       ((0 < x)%N → digits d) ∧
       ∃ k, 0 ≤ k ∧ ∀ acc, decimal d acc = acc * 10 ^ k + Z.of_N x.
Proof.
  induction (N.lt_wf_0 x) as [x _ IH].
  destruct (decide (0 < x)%N) as [Hx|Hx].
  - destruct (IH (x `div` 10)%N) as (d & Hd & Htail & Hdig & k & Hk & Hval).
    { by apply N.div_lt. }
    destruct (pretty_N_char_digit (x `mod` 10)) as [Hc Hv].
    { by apply N.mod_lt. }
    exists (d +:+ String (pretty_N_char (x `mod` 10)) EmptyString).
    split; [|split; [|split]].
    + intros s. by rewrite pretty_N_go_step, Hd, app_assoc_str.
    + by apply digit_tail_snoc.
    + intros _. destruct (decide (0 < x `div` 10)%N) as [Hq|Hq].
      * by apply digits_snoc; [apply Hdig|].
      * assert (x `div` 10 = 0)%N as Hz by (by apply N.le_0_r, N.nlt_ge).
        specialize (Hd EmptyString). rewrite Hz, pretty_N_go_0 in Hd.
        destruct d; [|done]. simpl. by constructor; [|constructor].
    + exists (k + 1). split; [lia|]. intros acc.
      rewrite decimal_app, Hval. simpl.
      rewrite (Is_true_true_1 _ Hc), Hv.
      rewrite Z.pow_add_r, Z.pow_1_r by lia.
      pose proof (N.div_mod x 10). lia.
  - assert (x = 0)%N as -> by lia. exists EmptyString.
    split; [done|]. split; [constructor|]. split; [lia|].
    exists 0. split; [done|]. intros acc. simpl. lia.
Qed.

(** [str n] is digits that write [n], after a minus sign when [n < 0]. *)
Lemma str_parts n :
  ∃ sg k body,
    str n = sg +:+ body ∧ sign_of sg k ∧ digits body ∧
    n = k * decimal body 0 ∧
    sg = (if decide (0 ≤ n) then EmptyString else "-"%string).
Proof.
  assert (∀ q, ∃ d, pretty (Z.pos q) = d ∧ digits d ∧ decimal d 0 = Z.pos q)
    as Hpos.
  { intros q.
    destruct (pretty_N_go_digits (N.pos q)) as (d & Hd & _ & Hdig & k & _ & Hval).
    exists d. split; [|split; [by apply Hdig|]].
    - unfold pretty, pretty_Z, pretty, pretty_positive, pretty, pretty_N.
      rewrite decide_False by done. by rewrite Hd, app_empty_r.
    - rewrite Hval. simpl. lia. }
  destruct n as [|q|q].
  - exists EmptyString, 1, "0"%string. repeat split; try constructor; done.
  - destruct (Hpos q) as (d & Hd & Hdig & Hval).
    exists EmptyString, 1, d. repeat split; [done|constructor|done|lia].
  - destruct (Hpos q) as (d & Hd & Hdig & Hval).
    exists "-"%string, (-1), d. repeat split; [|constructor|done|lia].
    unfold str, pretty, pretty_Z. by rewrite <-Hd.
Qed.

Lemma str_literal n ws1 ws2 :
  spaces ws1 → spaces ws2 → int_literal (ws1 +:+ str n +:+ ws2) n.
Proof.
  intros H1 H2. destruct (str_parts n) as (sg & k & body & -> & ? & ? & ? & _).
  exists ws1, sg, k, body, ws2. by rewrite app_assoc_str.
Qed.

Lemma plus_str_literal n ws1 ws2 :
  0 ≤ n → spaces ws1 → spaces ws2 →
  int_literal (ws1 +:+ "+" +:+ str n +:+ ws2) n.
Proof.
  intros Hn H1 H2.
  destruct (str_parts n) as (sg & k & body & Hstr & Hsg & Hb & Hval & Hpos).
  rewrite decide_True in Hpos by done. subst sg. rewrite Hstr. simpl.
  inversion Hsg; subst k.
  exists ws1, "+"%string, 1, body, ws2. by repeat split; try constructor.
Qed.

Lemma int_of_str_str n : within_limit (str n) → int_of_str (str n) = Ret n.
Proof.
  apply int_of_str_literal.
  pose proof (str_literal n EmptyString EmptyString) as H.
  simpl in H. rewrite app_empty_r in H. by apply H.
Qed.

(** Blanks around a number, and a plus sign in front of it, leave its
    digits as they are. *)
Lemma within_limit_between s ws1 ws2 :
  spaces ws1 → spaces ws2 → within_limit s → within_limit (ws1 +:+ s +:+ ws2).
Proof.
  unfold within_limit. intros H1 H2. rewrite !digit_count_app.
  rewrite (digit_count_spaces ws1), (digit_count_spaces ws2) by done. lia.
Qed.

Lemma within_limit_plus s : within_limit s → within_limit ("+" +:+ s).
Proof. unfold within_limit. simpl. lia. Qed.

(** An integer literal is made of literal characters and has a digit. *)
Lemma all_chars_app P a b :
  all_chars P (a +:+ b) = all_chars P a && all_chars P b.
Proof. induction a as [|c a IH]; simpl; [done|]. by rewrite IH, andb_assoc. Qed.

Lemma some_char_app P a b :
  some_char P (a +:+ b) = some_char P a || some_char P b.
Proof. induction a as [|c a IH]; simpl; [done|]. by rewrite IH, orb_assoc. Qed.

Lemma spaces_literal_chars ws : spaces ws → all_chars literal_char ws.
Proof.
  induction ws as [|c ws IH]; simpl; [done|].
  intros [Hc Hws]%andb_prop_elim. apply andb_prop_intro. split; [|auto].
  unfold literal_char. destruct (c_isspace c); [|done].
  by rewrite !orb_true_r.
Qed.

Lemma digit_tail_literal_chars d : digit_tail d → all_chars literal_char d.
Proof.
  unfold literal_char.
  induction 1 as [|c r Hc _ IH|c r Hc _ IH]; simpl; [done|..];
    destruct (isdigit c); done.
Qed.

Lemma literal_char_ascii c : literal_char c → is_ascii c.
Proof. by destruct c as [[] [] [] [] [] [] [] []]. Qed.

Lemma literal_chars_ascii s : all_chars literal_char s → ascii_text s.
Proof.
  unfold ascii_text. induction s as [|c s IH]; simpl; [done|].
  intros [Hc Hs]%andb_prop_elim. apply andb_prop_intro.
  split; [by apply literal_char_ascii|auto].
Qed.

Lemma int_literal_chars s n :
  int_literal s n → all_chars literal_char s ∧ some_char isdigit s.
Proof.
  intros (ws1 & sg & k & body & ws2 & -> & H1 & H2 & Hsg & Hb & _).
  rewrite !all_chars_app, !some_char_app. split.
  - repeat (apply andb_prop_intro; split);
      auto using spaces_literal_chars.
    + by destruct Hsg.
    + destruct Hb as [c r Hc Hr]. simpl. apply andb_prop_intro.
      split; [|by apply digit_tail_literal_chars].
      unfold literal_char. by destruct (isdigit c).
  - destruct Hb as [c r Hc Hr]. simpl. destruct (isdigit c); [|done].
    by rewrite !orb_true_r.
Qed.

End IntFacts.

(** ** The score normalizer *)

Section NormalizeFacts.

Lemma normalize_topar_total val : normalize_topar val = Ret (normalized val).
Proof.
  unfold normalized, normalize_topar.
  destruct (eq_str val "E"); [done|]. by destruct (int val).
Qed.

Lemma E_not_literal n : ¬ int_literal "E" n.
Proof. by intros [Hall _]%int_literal_chars. Qed.

Lemma normalized_str s n :
  normalized (PStr s) = Some n ↔
  (s = "E"%string ∧ n = 0) ∨ (int_literal s n ∧ within_limit s).
Proof.
  unfold normalized, normalize_topar. simpl.
  destruct (bool_decide_reflect (s = "E"%string)) as [->|Hs].
  - split; [intros [= <-]; by left|].
    intros [[_ ->]|[H _]]; [done|by destruct (E_not_literal n)].
  - rewrite <-int_of_str_spec. destruct (int_of_str s) as [m|e]; simpl.
    + split; [intros [= ->]; by right|]. intros [[? _]|[= ->]]; done.
    + split; [done|]. by intros [[? _]|?].
Qed.

Lemma normalized_str_None s :
  normalized (PStr s) = None ↔
  s ≠ "E"%string ∧ ∀ n, ¬ (int_literal s n ∧ within_limit s).
Proof.
  split.
  - intros H. split.
    + intros ->. done.
    + intros n Hn. assert (normalized (PStr s) = Some n) as Hs.
      { apply normalized_str. by right. }
      congruence.
  - intros [Hs Hlit]. destruct (normalized (PStr s)) as [n|] eqn:E; [|done].
    apply normalized_str in E as [[? _]|?]; [done|by destruct (Hlit n)].
Qed.

(** A string that is no literal is unavailable, and so is a literal with
    too many digits. *)
Lemma normalized_no_literal s :
  s ≠ "E"%string → (∀ n, ¬ int_literal s n) → normalized (PStr s) = None.
Proof.
  intros Hs Hlit. apply normalized_str_None. split; [done|].
  intros n [Hn _]. by destruct (Hlit n).
Qed.

Lemma normalized_over_limit s : ¬ within_limit s → normalized (PStr s) = None.
Proof.
  intros Hlimit. apply normalized_str_None. split.
  - intros ->. apply Hlimit. unfold within_limit. by vm_compute.
  - by intros n [_ ?].
Qed.

End NormalizeFacts.

(** ** The stable sort, [sum] and [max] *)

Section SortFacts.
Context {A : Type} (key : A → Z).

Lemma insert_by_Permutation x l : insert_by key x l ≡ₚ x :: l.
Proof.
  induction l as [|y l IH]; simpl; [done|].
  destruct (decide (key x ≤ key y)); [done|].
  by rewrite IH, Permutation_swap.
Qed.

Lemma sorted_Permutation l : sorted key l ≡ₚ l.
Proof.
  induction l as [|x l IH]; simpl; [done|].
  by rewrite insert_by_Permutation, IH.
Qed.

Lemma insert_by_StronglySorted x l :
  StronglySorted (key_le key) l → StronglySorted (key_le key) (insert_by key x l).
Proof.
  induction 1 as [|y l Hl IH Hy]; simpl.
  - by repeat constructor.
  - destruct (decide (key x ≤ key y)) as [Hxy|Hxy].
    + constructor; [by constructor|].
      constructor; [done|].
      eapply Forall_impl; [exact Hy|]. unfold key_le. intros; simpl in *; lia.
    + constructor; [done|].
      rewrite insert_by_Permutation. constructor; [|done].
      unfold key_le. lia.
Qed.

Lemma sorted_StronglySorted l : StronglySorted (key_le key) (sorted key l).
Proof.
  induction l as [|x l IH]; simpl; [constructor|].
  by apply insert_by_StronglySorted.
Qed.

(** Ascending order, as a statement on neighbours. *)
Lemma sorted_adjacent l i a b :
  sorted key l !! i = Some a → sorted key l !! S i = Some b →
  key a ≤ key b.
Proof.
  generalize (sorted_StronglySorted l). generalize (sorted key l).
  intros s Hs. revert i. induction Hs as [|x s Hs IH Hx]; intros i; [done|].
  destruct i as [|i]; simpl.
  - intros [= ->] Hb. rewrite Forall_forall in Hx.
    apply Hx. by eapply list_elem_of_lookup_2.
  - apply IH.
Qed.

(** Stability: the elements of any one key come out in the order they
    went in. *)
Lemma insert_by_filter k x l :
  filter (λ a, key a = k) (insert_by key x l)
  = filter (λ a, key a = k) (x :: l).
Proof.
  induction l as [|y l IH]; simpl; [done|].
  destruct (decide (key x ≤ key y)) as [Hxy|Hxy]; [done|].
  rewrite (filter_cons _ y (insert_by _ _ _)), IH, !filter_cons.
  destruct (decide (key x = k)), (decide (key y = k)); (done || lia).
Qed.

Lemma sorted_stable k l :
  filter (λ a, key a = k) (sorted key l) = filter (λ a, key a = k) l.
Proof.
  induction l as [|x l IH]; simpl; [done|].
  by rewrite insert_by_filter, !filter_cons, IH.
Qed.

End SortFacts.

Section SumMaxFacts.

Lemma sum_foldl l acc : foldl Z.add acc l = acc + foldl Z.add 0 l.
Proof.
  revert acc. induction l as [|x l IH]; intros acc; simpl; [lia|].
  rewrite (IH (acc + x)), (IH (0 + x)). lia.
Qed.

Lemma sum_cons x l : sum (x :: l) = x + sum l.
Proof. unfold sum. simpl. rewrite sum_foldl. lia. Qed.

Lemma sum_app l k : sum (l ++ k) = sum l + sum k.
Proof.
  induction l as [|x l IH]; simpl; [done|]. rewrite !sum_cons, IH. lia.
Qed.

Lemma sum_Permutation l k : l ≡ₚ k → sum l = sum k.
Proof.
  induction 1; rewrite ?sum_cons; lia.
Qed.

Lemma sum_bound l b : Forall (λ x, x ≤ b) l → sum l ≤ Z.of_nat (length l) * b.
Proof.
  induction 1 as [|x l Hx _ IH]; [done|].
  rewrite sum_cons, length_cons. lia.
Qed.

Lemma foldl_max_ge l : ∀ acc,
  acc ≤ foldl Z.max acc l ∧ Forall (λ x, x ≤ foldl Z.max acc l) l.
Proof.
  induction l as [|x l IH]; intros acc; simpl; [by split|].
  destruct (IH (Z.max acc x)) as [H1 H2].
  split; [lia|]. constructor; [lia|done].
Qed.

Lemma foldl_max_elem l : ∀ acc,
  foldl Z.max acc l = acc ∨ foldl Z.max acc l ∈ l.
Proof.
  induction l as [|x l IH]; intros acc; simpl; [by left|].
  destruct (IH (Z.max acc x)) as [->|H].
  - destruct (Z.max_spec acc x) as [[_ ->]|[_ ->]]; [right; left|by left].
  - right. by right.
Qed.

(** [max] raises on the empty list only, and otherwise returns an element
    that no element exceeds. *)
Lemma max_Ret l m :
  Py.max l = Ret m ↔ m ∈ l ∧ Forall (λ x, x ≤ m) l.
Proof.
  destruct l as [|x l]; simpl.
  - split; [done|]. by intros [?%elem_of_nil _].
  - split.
    + intros [= <-]. destruct (foldl_max_ge l x) as [H1 H2].
      split; [|by constructor].
      destruct (foldl_max_elem l x) as [->|H]; [left|by right].
    + intros [Hm Hle]. f_equal.
      destruct (foldl_max_ge l x) as [H1 H2].
      assert (foldl Z.max x l ∈ x :: l) as Hin.
      { destruct (foldl_max_elem l x) as [->|H]; [left|by right]. }
      rewrite Forall_forall in Hle. apply Hle in Hin.
      assert (m ≤ foldl Z.max x l); [|lia].
      apply elem_of_cons in Hm as [->|Hm]; [done|].
      rewrite Forall_forall in H2. by apply H2.
Qed.

Lemma max_Raise l e : Py.max l = Raise e ↔ l = [] ∧ e = ValueError.
Proof.
  destruct l; simpl; split; try congruence.
  - by intros [= <-].
  - by intros [_ ->].
  - by intros [? _].
Qed.

(** The sorted list of [n + 1] numbers is its [n] first and a last one
    that none of them exceeds. *)
Lemma sorted_split_last (l : list Z) n :
  length l = S n →
  ∃ m, sorted id l = take n (sorted id l) ++ [m] ∧
       Forall (λ x, x ≤ m) (take n (sorted id l)).
Proof.
  intros Hlen.
  pose proof (sorted_StronglySorted id l) as Hs.
  assert (length (sorted id l) = S n) as Hlen'.
  { by rewrite (Permutation_length (sorted_Permutation id l)). }
  revert Hs Hlen'. generalize (sorted id l). clear l Hlen.
  intros s. revert s. induction n as [|n IH]; intros s Hs Hlen.
  - destruct s as [|m [|? ?]]; simplify_eq/=. by exists m.
  - destruct s as [|x s]; simplify_eq/=.
    inversion Hs as [|? ? Hs' Hx]; subst.
    destruct (IH s Hs') as (m & Heq & Hle); [lia|].
    exists m. split; [by rewrite <-Heq|].
    constructor; [|done].
    rewrite Forall_forall in Hx. apply (Hx m).
    rewrite Heq. apply elem_of_app. right. left.
Qed.

End SumMaxFacts.

(** ** Loops that may raise *)

Section MapMFacts.
Context {A B : Type} (f : A → res B).

Lemma bind_Ret (a : A) : Ret a ≫= f = f a.
Proof. done. Qed.

Lemma bind_Raise (e : exn) : Raise e ≫= f = Raise e.
Proof. done. Qed.

Lemma mapM_Ret l k :
  mapM f l = Ret k ↔ Forall2 (λ x y, f x = Ret y) l k.
Proof.
  revert k. induction l as [|x l IH]; intros k; simpl.
  - split; [intros [= <-]; constructor|by inversion 1].
  - split.
    + destruct (f x) as [y|e] eqn:Hx; simpl; [|done].
      destruct (mapM f l) as [k'|e] eqn:Hl; simpl; [|done].
      intros [= <-]. constructor; [done|by apply IH].
    + inversion 1 as [|? y ? k' Hx Hl]; subst.
      apply IH in Hl. rewrite Hx. simpl. by rewrite Hl.
Qed.

(** The loop stops at the first turn that raises. *)
Lemma mapM_Raise_elem l x :
  x ∈ l → (∃ e, f x = Raise e) → ∃ e, mapM f l = Raise e.
Proof.
  intros Hx [e He]. induction l as [|y l IH]; [by apply elem_of_nil in Hx|].
  simpl. destruct (f y) as [b|e'] eqn:Hy; simpl; [|by eexists].
  apply elem_of_cons in Hx as [->|Hx]; [congruence|].
  destruct (IH Hx) as [e' ->]. by eexists.
Qed.

Lemma mapM_Raise l e : mapM f l = Raise e → ∃ x, x ∈ l ∧ f x = Raise e.
Proof.
  induction l as [|y l IH]; simpl; [done|].
  destruct (f y) as [b|e'] eqn:Hy; simpl.
  - destruct (mapM f l) as [k|e'']; simpl; [done|].
    intros [= ->]. destruct IH as (x & Hx & He); [done|].
    exists x. split; [by right|done].
  - intros [= ->]. exists y. split; [left|done].
Qed.

End MapMFacts.

(** ** The worst score *)

Section WorstScoreFacts.

Lemma elem_of_values {V} (d : gmap string V) v :
  v ∈ values d ↔ ∃ k, d !! k = Some v.
Proof.
  unfold values. rewrite list_elem_of_fmap. split.
  - intros ([k v'] & -> & H%elem_of_map_to_list). by exists k.
  - intros [k H]. exists (k, v). by rewrite elem_of_map_to_list.
Qed.

Lemma not_dict_empty {V} (d : gmap string V) : not_dict d ↔ d = ∅.
Proof.
  unfold not_dict. rewrite <-map_to_list_empty_iff.
  by destruct (map_to_list d).
Qed.

Lemma normalizable_scores_Ret players :
  normalizable_scores players = Ret (omap topar_score players).
Proof.
  induction players as [|p players IH]; simpl; [done|].
  rewrite normalize_topar_total, IH. simpl.
  unfold topar_score. by destruct (normalized _).
Qed.

Lemma worst_score_max live_data :
  worst_score live_data = Py.max (omap topar_score (values live_data)).
Proof. unfold worst_score. by rewrite normalizable_scores_Ret. Qed.

Lemma elem_of_pool live_data n :
  n ∈ omap topar_score (values live_data) ↔ resolvable live_data n.
Proof.
  rewrite list_elem_of_omap. unfold resolvable. split.
  - intros (p & [key Hp]%elem_of_values & Hn). by exists key, p.
  - intros (key & p & Hp & Hn). exists p. split; [|done].
    apply elem_of_values. by exists key.
Qed.

Lemma worst_score_Ret live_data w :
  worst_score live_data = Ret w ↔
  resolvable live_data w ∧ ∀ n, resolvable live_data n → n ≤ w.
Proof.
  rewrite worst_score_max, max_Ret, Forall_forall, elem_of_pool.
  by setoid_rewrite elem_of_pool.
Qed.

Lemma worst_score_Raise live_data e :
  worst_score live_data = Raise e ↔
  e = ValueError ∧ ∀ n, ¬ resolvable live_data n.
Proof.
  rewrite worst_score_max, max_Raise. split.
  - intros [Hnil ->]. split; [done|]. intros n Hn%elem_of_pool.
    rewrite Hnil in Hn. by apply elem_of_nil in Hn.
  - intros [-> Hnone]. split; [|done].
    destruct (omap _ _) as [|n l] eqn:E; [done|].
    destruct (Hnone n). apply elem_of_pool. rewrite E. left.
Qed.

End WorstScoreFacts.

(** ** The team loop *)

Section TeamFacts.

Lemma adjust_Ret worst score status adjusted shown :
  adjust worst score status = Ret (adjusted, shown) →
  (adjusted = worst ∧ shown = CutScore worst) ∨
  (score = Some adjusted ∧ shown = PlainScore adjusted).
Proof.
  unfold adjust. destruct score as [n|]; [|intros [= <- <-]; by left].
  destruct (upper_method status) as [u|]; simpl; [|done].
  destruct (bool_decide _); intros [= <- <-]; [by left|by right].
Qed.

(** A turn of the inner loop that returns has found a record of the
    index under the key of the slot's name. *)
Lemma score_slot_Ret t live_data worst i c name adjusted :
  score_slot t live_data worst i = Ret (c, (name, adjusted)) →
  ∃ raw p,
    t !! tier_key i = Some raw ∧ name = strip raw ∧
    live_data !! lower (strip name) = Some p ∧ not_dict p = false ∧
    c = Cell (get p "id" PNone) name (cell_score c) ∧
    adjust worst (topar_score p) (get p "status" (PStr "OK"))
    = Ret (adjusted, cell_score c).
Proof.
  unfold score_slot, getitem.
  destruct (t !! tier_key i) as [raw|] eqn:Hraw; simpl; [|done].
  unfold get_player_score.
  destruct (live_data !! _) as [p|] eqn:Hp; simpl; [|done].
  destruct (not_dict p) eqn:Hnp; simpl; [done|].
  rewrite normalize_topar_total. simpl.
  fold (topar_score p).
  destruct (adjust _ _ _) as [[a shown]|] eqn:Ha; simpl; [|done].
  intros [= <- <- <-]. exists raw, p. by repeat split.
Qed.

Lemma score_slot_missing t live_data worst i raw :
  t !! tier_key i = Some raw →
  live_data !! lower (strip (strip raw)) = None →
  score_slot t live_data worst i = Raise ValueError.
Proof.
  intros Hraw Hp. unfold score_slot, getitem. rewrite Hraw. simpl.
  unfold get_player_score. by rewrite Hp.
Qed.

Lemma score_slot_bound t live_data worst i c name adjusted :
  (∀ n, resolvable live_data n → n ≤ worst) →
  score_slot t live_data worst i = Ret (c, (name, adjusted)) →
  adjusted ≤ worst.
Proof.
  intros Hworst (raw & p & _ & _ & Hp & _ & _ & Ha)%score_slot_Ret.
  apply adjust_Ret in Ha as [[-> _]|[Hs _]]; [done|].
  apply Hworst. by exists (lower (strip name)), p.
Qed.

Lemma score_team_Ret live_data worst t r pairs :
  score_team live_data worst t = Ret (r, pairs) →
  ∃ slots,
    mapM (score_slot t live_data worst) (seq 1 6) = Ret slots ∧
    pairs = slots.*2 ∧ AdjustedScores r = pairs.*2 ∧
    length (AdjustedScores r) = 6%nat ∧
    Total r = sum (take 5 (sorted id (AdjustedScores r))).
Proof.
  unfold score_team.
  destruct (mapM (score_slot t live_data worst) (seq 1 6))
    as [slots|] eqn:Hslots;
    (destruct (getitem t "Person") as [person|]; simpl; [|done]); [|done].
  intros [= <- <-]. exists slots. repeat split.
  apply mapM_Ret, Forall2_length in Hslots.
  simpl. by rewrite !length_fmap, <-Hslots.
Qed.

Lemma score_team_bound live_data worst t r pairs :
  (∀ n, resolvable live_data n → n ≤ worst) →
  score_team live_data worst t = Ret (r, pairs) →
  Forall (λ x, x ≤ worst) (AdjustedScores r) ∧
  Forall (λ pair, pair.2 ≤ worst) pairs.
Proof.
  intros Hworst (slots & Hslots & -> & -> & _)%score_team_Ret.
  assert (Forall (λ pair : string * Z, pair.2 ≤ worst) slots.*2) as H.
  { apply mapM_Ret in Hslots. apply Forall_fmap.
    clear -Hslots Hworst. induction Hslots as [|i [c [name a]] ? ? Hi _ IH];
      constructor; [|done].
    simpl. by eapply score_slot_bound. }
  split; [|done]. by apply Forall_fmap.
Qed.

Lemma aggregate_Ret teams_data live_data leaderboard pairs :
  aggregate teams_data live_data = Ret (leaderboard, pairs) →
  ∃ worst scored,
    worst_score live_data = Ret worst ∧
    mapM (score_team live_data worst) teams_data = Ret scored ∧
    leaderboard = sorted Total scored.*1 ∧ pairs = concat scored.*2.
Proof.
  unfold aggregate.
  destruct (worst_score live_data) as [worst|]; simpl; [|done].
  destruct (mapM (score_team live_data worst) _) as [scored|] eqn:Hs;
    simpl; [|done].
  intros [= <- <-]. by exists worst, scored.
Qed.

End TeamFacts.

(** ** The index of the feed *)

Section IndexFacts.

Lemma index_players_keys player_data : ∀ acc live_data,
  index_players player_data acc = Ret live_data →
  ∀ key p, live_data !! key = Some p →
    acc !! key = Some p ∨
    (p ∈ player_data ∧
     ∃ full_name, p !! "full_name"%string = Some (PStr full_name) ∧
                  key = lower (strip full_name)).
Proof.
  induction player_data as [|q rest IH]; intros acc live_data; simpl.
  - intros [= <-] key p Hp. by left.
  - unfold getitem. destruct (q !! "full_name"%string) as [v|] eqn:Hv; [|done].
    rewrite bind_Ret. destruct v as [| | | |fn| |]; try done.
    simpl. intros Hrest key p Hp.
    destruct (IH _ _ Hrest key p Hp) as [Hacc|(Hin & fn' & Hfn & Hkey)].
    + rewrite lookup_insert in Hacc. case_decide as Hk.
      * injection Hacc as <-. right. split; [left|]. by exists fn.
      * by left.
    + right. split; [by right|]. by exists fn'.
Qed.

Lemma index_players_covers player_data : ∀ acc live_data,
  index_players player_data acc = Ret live_data →
  (∀ key, is_Some (acc !! key) → is_Some (live_data !! key)) ∧
  ∀ p, p ∈ player_data →
    ∃ full_name, p !! "full_name"%string = Some (PStr full_name) ∧
                 is_Some (live_data !! lower (strip full_name)).
Proof.
  induction player_data as [|q rest IH]; intros acc live_data; simpl.
  - intros [= <-]. split; [done|]. by intros p ?%elem_of_nil.
  - unfold getitem. destruct (q !! "full_name"%string) as [v|] eqn:Hv; [|done].
    rewrite bind_Ret. destruct v as [| | | |fn| |]; try done.
    simpl. intros Hrest. destruct (IH _ _ Hrest) as [Hacc Hcov]. split.
    + intros key Hkey. apply Hacc. rewrite lookup_insert.
      by case_decide.
    + intros p [->|Hp]%elem_of_cons; [|by apply Hcov].
      exists fn. split; [done|]. apply Hacc. by rewrite lookup_insert_eq.
Qed.

(** A record that no later record of the feed replaces stays where the
    comprehension put it. *)
Lemma index_players_other_key player_data : ∀ acc live_data key,
  index_players player_data acc = Ret live_data →
  Some key ∉ record_key <$> player_data →
  live_data !! key = acc !! key.
Proof.
  induction player_data as [|q rest IH]; intros acc live_data key; simpl.
  - by intros [= <-].
  - unfold getitem.
    destruct (q !! "full_name"%string) as [v|] eqn:Hv; [|done].
    rewrite bind_Ret. destruct v as [| | | |fn| |]; try done.
    simpl. intros Hrest Hkey.
    assert (record_key q = Some (lower (strip fn))) as Hq.
    { unfold record_key. by rewrite Hv. }
    rewrite Hq in Hkey. apply not_elem_of_cons in Hkey as [Hne Hkey].
    rewrite (IH _ _ key Hrest Hkey). apply lookup_insert_ne. congruence.
Qed.

Lemma index_players_NoDup player_data : ∀ acc live_data,
  index_players player_data acc = Ret live_data →
  NoDup (record_key <$> player_data) →
  ∀ p, p ∈ player_data →
    ∃ key, record_key p = Some key ∧ live_data !! key = Some p.
Proof.
  induction player_data as [|q rest IH]; intros acc live_data; simpl.
  - intros _ _ p Hp. by apply elem_of_nil in Hp.
  - unfold getitem.
    destruct (q !! "full_name"%string) as [v|] eqn:Hv; [|done].
    rewrite bind_Ret. destruct v as [| | | |fn| |]; try done.
    simpl. intros Hrest [Hq Hnodup]%NoDup_cons p [->|Hp]%elem_of_cons.
    + exists (lower (strip fn)). unfold record_key. rewrite Hv.
      split; [done|].
      rewrite (index_players_other_key _ _ _ _ Hrest).
      * by rewrite lookup_insert_eq.
      * unfold record_key in Hq. by rewrite Hv in Hq.
    + by apply (IH _ _ Hrest).
Qed.

End IndexFacts.

(** * The claims *)

(** ** C1: a player missing from the feed *)

(** Whatever else happens in a run, one slot whose name is not a key of the
    index ends it with an exception. *)
Lemma missing_player_aborts teams_data live_data t i raw :
  t ∈ teams_data → i ∈ seq 1 6 →
  t !! tier_key i = Some raw →
  live_data !! lower (strip (strip raw)) = None →
  ∃ e, aggregate teams_data live_data = Raise e.
Proof.
  intros Ht Hi Hraw Hmiss. unfold aggregate.
  destruct (worst_score live_data) as [worst|e]; simpl; [|by eexists].
  destruct (mapM_Raise_elem (score_team live_data worst) teams_data t Ht)
    as [e ->]; [|by eexists].
  unfold score_team.
  destruct (getitem t "Person") as [person|e]; [|by eexists].
  rewrite bind_Ret.
  destruct (mapM_Raise_elem (score_slot t live_data worst) (seq 1 6) i Hi)
    as [e ->]; [|by eexists].
  exists ValueError. by eapply score_slot_missing.
Qed.

(** C1 (the code departs from the claim).  On the sample feed, for a team
    whose sixth player "Zed" is not in the feed: the resolver does return
    its NOT FOUND sentinel, but the sentinel is a pair and the caller
    unpacks three values, so the run ends with an uncaught [ValueError] and
    no row is produced for the team. *)
Theorem C1_missing_player_ends_the_run :
  fetch_live_scores (Ret sample_feed) = Ret sample_index ∧
  get_player_score "Zed" sample_index = Ret (Tuple2 None (PStr "NOT FOUND")) ∧
  unpack3 (Tuple2 None (PStr "NOT FOUND")) = Raise ValueError ∧
  worst_score sample_index = Ret 5 ∧
  score_team sample_index 5 team_with_stranger = Raise ValueError ∧
  script [team_with_stranger] (Ret sample_feed) = Uncaught ValueError.
Proof. by vm_compute. Qed.

(** ** C2: a feed without any integer to-par *)

(** C2.  When the index is not empty and none of its records has an
    integer to-par, the run ends with the [ValueError] of [max] on the empty
    list, for every roster and before any team is scored: an error reaches
    the caller and no leaderboard is rendered.  So do the runs on a feed
    that is not available: an exception of the request or of the indexing
    reaches the caller as it is, and the empty index is stopped by the
    guard after [st.error]. *)
Theorem C2_no_resolvable_scores_is_fatal teams_data live_data :
  not_dict live_data = false →
  (∀ n, ¬ resolvable live_data n) →
  guarded teams_data live_data = Uncaught ValueError ∧
  fatal (guarded teams_data live_data) ∧
  (∀ e, script teams_data (Raise e) = Uncaught e ∧
        fatal (script teams_data (Raise e))) ∧
  (∀ player_data e, fetch_live_scores (Ret player_data) = Raise e →
     script teams_data (Ret player_data) = Uncaught e) ∧
  guarded teams_data ∅ = Stopped "Could not fetch live Masters data." ∧
  fatal (guarded teams_data ∅).
Proof.
  intros Hne Hnone.
  assert (guarded teams_data live_data = Uncaught ValueError) as Hrun.
  { unfold guarded, aggregate. rewrite Hne.
    by rewrite (proj2 (worst_score_Raise live_data ValueError)). }
  split; [done|]. rewrite Hrun. split; [done|]. split; [done|].
  split; [|done].
  intros player_data e Hfetch. unfold script. by rewrite Hfetch.
Qed.

Lemma C2_witness :
  fetch_live_scores (Ret feed_without_scores) = Ret index_without_scores ∧
  script [sample_team] (Ret feed_without_scores) = Uncaught ValueError ∧
  fatal (guarded [sample_team] index_without_scores).
Proof.
  destruct (C2_no_resolvable_scores_is_fatal [sample_team] index_without_scores)
    as (H1 & H2 & _).
  - reflexivity.
  - intros n Hn.
    destruct (proj1 (worst_score_Raise index_without_scores ValueError))
      as [_ Hnone]; [reflexivity|exact (Hnone n Hn)].
  - split; [reflexivity|]. split; [exact H1|exact H2].
Defined.

(** ** C3: the worst score *)

(** C3.  [worst_score] returns [w] exactly when [w] is the greatest integer
    to-par of the records of the index, whatever their status; it is
    evaluated before the team loop and the one value is used for every team
    of every roster.  The records of the index are records of the feed, and
    all of them when no two records of the feed have the same key. *)
Theorem C3_worst_score_is_feed_maximum live_data w :
  (worst_score live_data = Ret w ↔
   resolvable live_data w ∧ ∀ n, resolvable live_data n → n ≤ w) ∧
  (worst_score live_data = Ret w →
   ∀ teams_data,
     aggregate teams_data live_data
     = scored ← mapM (score_team live_data w) teams_data;
       Ret (sorted Total scored.*1, concat scored.*2)) ∧
  (∀ e, worst_score live_data = Raise e →
   ∀ teams_data, aggregate teams_data live_data = Raise e) ∧
  (∀ player_data,
     fetch_live_scores (Ret player_data) = Ret live_data →
     (∀ n, resolvable live_data n →
           ∃ p, p ∈ player_data ∧ topar_score p = Some n) ∧
     (NoDup (record_key <$> player_data) →
      ∀ p n, p ∈ player_data → topar_score p = Some n →
             resolvable live_data n)).
Proof.
  split; [apply worst_score_Ret|]. split; [|split].
  - intros Hw teams_data. unfold aggregate. by rewrite Hw.
  - intros e He teams_data. unfold aggregate. by rewrite He.
  - intros player_data Hfetch. split.
    + intros n (key & p & Hp & Hn). exists p. split; [|done].
      destruct (index_players_keys _ _ _ Hfetch key p Hp) as [Hacc|[Hin _]];
        [by rewrite lookup_empty in Hacc|done].
    + intros Hnodup p n Hp Hn.
      destruct (index_players_NoDup _ _ _ Hfetch Hnodup p Hp)
        as (key & _ & Hkey).
      by exists key, p.
Qed.

(** On the sample feed the worst score, 5, is the to-par of the player
    who is cut. *)
Lemma C3_witness :
  resolvable sample_index 5 ∧
  get (mk_player "C" "5" "C") "status" (PStr "OK") = PStr "C" ∧
  aggregate [] sample_index = Ret ([], []) ∧
  ∃ p, p ∈ sample_feed ∧ topar_score p = Some 5.
Proof.
  destruct (C3_worst_score_is_feed_maximum sample_index 5)
    as (H1 & H2 & _ & H3).
  assert (worst_score sample_index = Ret 5) as Hw by reflexivity.
  pose proof (proj1 (proj1 H1 Hw)) as Hres.
  split; [exact Hres|].
  split; [reflexivity|].
  split; [rewrite (H2 Hw []); reflexivity|].
  exact (proj1 (H3 sample_feed eq_refl) 5 Hres).
Defined.

(** ** C4: the best five of six *)

(** The five first of six sorted numbers: all but a greatest one. *)
Lemma best_five_of_six (scores : list Z) :
  length scores = 6%nat →
  ∃ dropped kept,
    scores ≡ₚ dropped :: kept ∧ length kept = 5%nat ∧
    Forall (λ x, x ≤ dropped) kept ∧
    Py.max scores = Ret dropped ∧
    sum (take 5 (sorted id scores)) = sum kept ∧
    sum (take 5 (sorted id scores)) = sum scores - dropped.
Proof.
  intros Hlen.
  destruct (sorted_split_last scores 5 Hlen) as (m & Hsplit & Hle).
  pose proof (sorted_Permutation id scores) as Hperm.
  assert (scores ≡ₚ m :: take 5 (sorted id scores)) as Hperm'.
  { rewrite <-Hperm at 1. rewrite Hsplit at 1.
    by rewrite Permutation_app_comm. }
  exists m, (take 5 (sorted id scores)). split; [done|].
  split.
  { apply Permutation_length in Hperm'. simpl in Hperm'. lia. }
  split; [done|]. split.
  - apply max_Ret. split.
    + rewrite Hperm'. left.
    + rewrite Hperm'. by constructor.
  - split; [done|]. rewrite (sum_Permutation _ _ Hperm'), sum_cons. lia.
Qed.

(** C4.  A team that is scored has six adjusted scores, and its total is
    the sum of five of them that leaves out one that none of the five
    exceeds: the five smallest, that is all six minus their maximum. *)
Theorem C4_total_is_best_five live_data worst t r pairs :
  score_team live_data worst t = Ret (r, pairs) →
  length (AdjustedScores r) = 6%nat ∧
  ∃ dropped kept,
    AdjustedScores r ≡ₚ dropped :: kept ∧ length kept = 5%nat ∧
    Forall (λ x, x ≤ dropped) kept ∧
    Py.max (AdjustedScores r) = Ret dropped ∧
    Total r = sum kept ∧
    Total r = sum (AdjustedScores r) - dropped.
Proof.
  intros (slots & _ & _ & _ & Hlen & ->)%score_team_Ret.
  split; [done|]. by apply best_five_of_six.
Qed.

Lemma C4_witness :
  ∃ r pairs,
    score_team sample_index 5 sample_team = Ret (r, pairs) ∧
    AdjustedScores r = [0; -3; 5; 0; -3; 5] ∧ Total r = -1 ∧
    length (AdjustedScores r) = 6%nat.
Proof.
  assert (∃ r pairs,
    score_team sample_index 5 sample_team = Ret (r, pairs) ∧
    AdjustedScores r = [0; -3; 5; 0; -3; 5] ∧ Total r = -1)
    as (r & pairs & Hrun & Hscores & Htotal).
  { vm_compute. eexists _, _. repeat split; reflexivity. }
  exists r, pairs. repeat split; try assumption.
  exact (proj1 (C4_total_is_best_five _ _ _ _ _ Hrun)).
Defined.

(** ** C5: the contract of [normalize_topar] *)

(** C5 as stated fails: ["1_0"] is neither ["E"] nor [str n] for any [n],
    and it is not mapped to unavailable but to 10.  The same holds of
    [" +3 "], ["007"] and [True]. *)
Lemma C5_other_input_not_unavailable :
  ¬ (∀ val, val ≠ PStr "E" → (∀ n, val ≠ PStr (str n)) →
       normalize_topar val = Ret None).
Proof.
  intros Hclaim. specialize (Hclaim (PStr "1_0")).
  assert (normalize_topar (PStr "1_0") = Ret (Some 10)) as Hrun by reflexivity.
  rewrite Hrun in Hclaim. discriminate Hclaim; [done|].
  intros n [= Hn].
  assert (within_limit (str n)) as Hlimit.
  { rewrite <-Hn. unfold within_limit. vm_compute. discriminate. }
  pose proof (int_of_str_str n Hlimit) as Hint.
  rewrite <-Hn in Hint. vm_compute in Hint. injection Hint as <-.
  vm_compute in Hn. discriminate Hn.
Qed.

(** C5 (amended).  ["E"] gives 0, and the decimal writing of [n] gives
    [n] when it has at most 4300 digits.  On ASCII text, a string gives an
    integer exactly when it is ["E"] or an integer literal as [int] reads
    it, with at most 4300 digits; every other string is unavailable: the
    empty string, a literal with more digits, and any string other than
    ["E"] that has no digit or has a character that is not a digit, a sign,
    an underscore or a blank.  [None], lists and dictionaries are
    unavailable, integers are themselves, booleans are 1 and 0, a finite
    float is its integer part towards zero, NaN and the infinities are
    unavailable, and no input makes the function raise. *)
Theorem C5_normalize_contract :
  normalize_topar (PStr "E") = Ret (Some 0) ∧
  (∀ n, within_limit (str n) →
     normalize_topar (PStr (str n)) = Ret (Some n)) ∧
  (∀ s, ascii_text s → s ≠ "E"%string → (∀ n, ¬ int_literal s n) →
     normalize_topar (PStr s) = Ret None) ∧
  (∀ s, ascii_text s → ¬ within_limit s →
     normalize_topar (PStr s) = Ret None) ∧
  (∀ s n, ascii_text s → normalize_topar (PStr s) = Ret (Some n) →
     (s = "E"%string ∧ n = 0) ∨ (int_literal s n ∧ within_limit s)) ∧
  (∀ s n, int_literal s n → within_limit s →
     ascii_text s ∧ normalize_topar (PStr s) = Ret (Some n)) ∧
  (∀ s, ascii_text s → s ≠ "E"%string →
     ¬ (all_chars literal_char s ∧ some_char isdigit s) →
     normalize_topar (PStr s) = Ret None) ∧
  normalize_topar (PStr EmptyString) = Ret None ∧
  normalize_topar PNone = Ret None ∧
  (∀ l, normalize_topar (PList l) = Ret None) ∧
  (∀ d, normalize_topar (PDict d) = Ret None) ∧
  (∀ z, normalize_topar (PInt z) = Ret (Some z)) ∧
  (∀ b, normalize_topar (PBool b) = Ret (Some (if b then 1 else 0))) ∧
  (∀ num den,
     normalize_topar (PFloat (Finite num den)) = Ret (Some (num ÷ Z.pos den))) ∧
  normalize_topar (PFloat NaN) = Ret None ∧
  (∀ negative, normalize_topar (PFloat (Infinity negative)) = Ret None) ∧
  (∀ val, ∃ score, normalize_topar val = Ret score).
Proof.
  assert (∀ s, s ≠ "E"%string → (∀ n, ¬ int_literal s n) →
            normalize_topar (PStr s) = Ret None) as Hother.
  { intros s Hs Hlit. rewrite normalize_topar_total. f_equal.
    by apply normalized_no_literal. }
  split; [done|]. split.
  { intros n Hlimit. rewrite normalize_topar_total. f_equal.
    apply normalized_str. right. split; [|done].
    pose proof (str_literal n EmptyString EmptyString) as H.
    simpl in H. rewrite app_empty_r in H. by apply H. }
  split; [by intros s _; apply Hother|]. split.
  { intros s _ Hlimit. rewrite normalize_topar_total. f_equal.
    by apply normalized_over_limit. }
  split.
  { intros s n _. rewrite normalize_topar_total. intros [= H].
    by apply normalized_str. }
  split.
  { intros s n Hlit Hlimit. split.
    - apply literal_chars_ascii. by apply (int_literal_chars s n).
    - rewrite normalize_topar_total. f_equal. apply normalized_str. by right. }
  split.
  { intros s _ Hs Hchars. apply Hother; [done|].
    intros n Hn%int_literal_chars. by destruct Hchars. }
  repeat split; try done.
  intros val. exists (normalized val). apply normalize_topar_total.
Qed.

Lemma C5_witness :
  normalize_topar (PStr "1__0") = Ret None ∧
  normalize_topar (PStr "Even") = Ret None ∧
  normalize_topar (PStr (nines 4301)) = Ret None ∧
  normalize_topar (PStr (str (-42))) = Ret (Some (-42)).
Proof.
  destruct C5_normalize_contract
    as (_ & Hstr & Hother & Hlimit & _ & _ & Hchars & _).
  split; [|split; [|split]].
  - apply Hother; [exact I|discriminate|].
    intros n Hn. apply int_of_str_literal in Hn; [discriminate Hn|].
    unfold within_limit. vm_compute. discriminate.
  - apply Hchars; [exact I|discriminate|]. intros [Hall _]. exact Hall.
  - apply Hlimit; [by vm_compute|].
    unfold within_limit. vm_compute. intros H. by apply H.
  - apply Hstr. unfold within_limit. vm_compute. discriminate.
Defined.

(** ** C6: who is penalized *)

(** C6 as stated fails for the player who holds the worst score without
    being cut: the adjusted score equals the worst score, and neither
    condition holds. *)
Lemma C6_worst_scorer_not_penalized :
  worst_score single_index = Ret 5 ∧
  ¬ (∀ raw p st c adjusted,
       team_of_one !! tier_key 1 = Some raw →
       single_index !! lower (strip raw) = Some p →
       get p "status" (PStr "OK") = PStr st →
       score_slot team_of_one single_index 5 1
       = Ret (c, (strip raw, adjusted)) →
       (adjusted = 5 ↔ upper st = "C"%string ∨ topar_score p = None)).
Proof.
  split; [reflexivity|]. intros Hclaim.
  specialize (Hclaim "A"%string (mk_player "A" "5" "OK") "OK"%string
                (Cell (PStr "1") "A" (PlainScore 5)) 5).
  destruct Hclaim as [Hcut _]; try reflexivity.
  destruct Hcut as [Hcut|Hfail]; [reflexivity|discriminate Hcut|discriminate Hfail].
Qed.

(** C6 (amended).  For a slot whose name is a key of the index, with a
    record that has fields and a status that is text (["OK"] when the field
    is absent), the turn of the loop returns, and either the player is
    penalized (the adjusted score is the worst score and the cell shows it
    as cut) and the status is C in either case or the to-par has no integer,
    or the adjusted score is the integer to-par and neither holds. *)
Theorem C6_penalty_rule t live_data worst i raw p st :
  t !! tier_key i = Some raw →
  live_data !! lower (strip raw) = Some p →
  not_dict p = false →
  get p "status" (PStr "OK") = PStr st →
  (p !! "status"%string = None → st = "OK"%string) ∧
  ∃ adjusted shown,
    score_slot t live_data worst i
    = Ret (Cell (get p "id" PNone) (strip raw) shown, (strip raw, adjusted)) ∧
    ((adjusted = worst ∧ shown = CutScore worst ∧
      ((st = "C"%string ∨ st = "c"%string) ∨ topar_score p = None)) ∨
     (topar_score p = Some adjusted ∧ shown = PlainScore adjusted ∧
      st ≠ "C"%string ∧ st ≠ "c"%string)).
Proof.
  intros Hraw Hp Hnp Hst. split.
  { intros Habs. unfold get in Hst. rewrite Habs in Hst. simpl in Hst. congruence. }
  unfold score_slot, getitem. rewrite Hraw, bind_Ret.
  unfold get_player_score. rewrite strip_idemp, Hp, Hnp.
  rewrite normalize_topar_total. fold (topar_score p). rewrite !bind_Ret.
  unfold unpack3. rewrite bind_Ret, Hst. unfold adjust.
  destruct (topar_score p) as [n|].
  - simpl. destruct (bool_decide_reflect (upper st = "C"%string)) as [Hc|Hc].
    + exists worst, (CutScore worst). split; [done|]. left.
      repeat split. left. by apply upper_is_C.
    + exists n, (PlainScore n). split; [done|]. right.
      repeat split; intros ->; by apply Hc.
  - exists worst, (CutScore worst). split; [done|]. left. by repeat split; right.
Qed.

Lemma C6_witness :
  ∃ adjusted shown,
    score_slot sample_team sample_index 5 3
    = Ret (Cell (PStr "1") "C" shown, ("C"%string, adjusted)) ∧
    adjusted = 5 ∧ shown = CutScore 5.
Proof.
  destruct (C6_penalty_rule sample_team sample_index 5 3 "C"
              (mk_player "C" "5" "C") "C")
    as (_ & adjusted & shown & Hrun & Hcase); try reflexivity.
  exists adjusted, shown. split; [exact Hrun|].
  destruct Hcase as [(Ha & Hs & _)|(_ & _ & Hc & _)]; [by split|by destruct Hc].
Defined.

(** ** C7: the order of the leaderboard *)

(** C7.  The leaderboard of a run is the rows of the teams, in roster
    order, rearranged so that totals never decrease from one entry to the
    next, and for every total the rows with that total follow one another
    as their teams do in the roster. *)
Theorem C7_leaderboard_sorted_stable teams_data live_data leaderboard pairs :
  aggregate teams_data live_data = Ret (leaderboard, pairs) →
  (∀ i a b, leaderboard !! i = Some a → leaderboard !! S i = Some b →
            Total a ≤ Total b) ∧
  ∃ worst rows,
    Forall2 (λ t r, ∃ ps, score_team live_data worst t = Ret (r, ps))
            teams_data rows ∧
    leaderboard ≡ₚ rows ∧
    ∀ total, filter (λ r, Total r = total) leaderboard
             = filter (λ r, Total r = total) rows.
Proof.
  intros (worst & scored & _ & Hscored & -> & _)%aggregate_Ret.
  split; [apply sorted_adjacent|].
  exists worst, scored.*1. split; [|split].
  - apply mapM_Ret in Hscored. clear -Hscored.
    induction Hscored as [|t [r ps] ? ? Ht _ IH]; constructor; [|done].
    by exists ps.
  - apply sorted_Permutation.
  - intros total. apply sorted_stable.
Qed.

Lemma C7_witness :
  ∃ leaderboard pairs,
    aggregate sample_roster sample_index = Ret (leaderboard, pairs) ∧
    Team <$> leaderboard = ["Bob"; "Ann"; "Cat"]%string ∧
    Total <$> leaderboard = [-15; -1; -1] ∧
    ∀ i a b, leaderboard !! i = Some a → leaderboard !! S i = Some b →
             Total a ≤ Total b.
Proof.
  assert (∃ leaderboard pairs,
    aggregate sample_roster sample_index = Ret (leaderboard, pairs) ∧
    Team <$> leaderboard = ["Bob"; "Ann"; "Cat"]%string ∧
    Total <$> leaderboard = [-15; -1; -1])
    as (leaderboard & pairs & Hrun & Hteams & Htotals).
  { vm_compute. eexists _, _. repeat split; reflexivity. }
  exists leaderboard, pairs. repeat split; try assumption.
  exact (proj1 (C7_leaderboard_sorted_stable _ _ _ _ Hrun)).
Defined.

(** ** C8: the lookup key *)




(** ** C9: nothing exceeds the worst score *)

Lemma worst_score_defined live_data n :
  resolvable live_data n → ∃ worst, worst_score live_data = Ret worst.
Proof.
  intros Hn%elem_of_pool. rewrite worst_score_max.
  destruct (omap _ _) as [|x l]; [by apply elem_of_nil in Hn|].
  by eexists.
Qed.

Lemma total_bound (scores : list Z) worst :
  length scores = 6%nat → Forall (λ x, x ≤ worst) scores →
  sum (take 5 (sorted id scores)) ≤ 5 * worst.
Proof.
  intros Hlen Hle.
  assert (Forall (λ x, x ≤ worst) (take 5 (sorted id scores))) as Hle'.
  { apply Forall_take. by rewrite sorted_Permutation. }
  apply sum_bound in Hle'. rewrite length_take in Hle'.
  rewrite (Permutation_length (sorted_Permutation id scores)), Hlen in Hle'.
  exact Hle'.
Qed.

(** C9.  When some record of the index has an integer to-par, the worst
    score is defined, and no adjusted score that a slot, a team or a whole
    run produces exceeds it; hence no total exceeds five times it. *)
Theorem C9_adjusted_scores_bounded live_data n :
  resolvable live_data n →
  ∃ worst,
    worst_score live_data = Ret worst ∧
    (∀ t i c name adjusted,
       score_slot t live_data worst i = Ret (c, (name, adjusted)) →
       adjusted ≤ worst) ∧
    (∀ t r pairs,
       score_team live_data worst t = Ret (r, pairs) →
       Forall (λ x, x ≤ worst) (AdjustedScores r) ∧ Total r ≤ 5 * worst) ∧
    (∀ teams_data leaderboard pairs,
       aggregate teams_data live_data = Ret (leaderboard, pairs) →
       Forall (λ r, Forall (λ x, x ≤ worst) (AdjustedScores r) ∧
                    Total r ≤ 5 * worst) leaderboard ∧
       Forall (λ pair, pair.2 ≤ worst) pairs).
Proof.
  intros [worst Hw]%worst_score_defined. exists worst. split; [done|].
  pose proof (proj2 (proj1 (worst_score_Ret live_data worst) Hw)) as Hmax.
  assert (∀ t r pairs,
    score_team live_data worst t = Ret (r, pairs) →
    (Forall (λ x, x ≤ worst) (AdjustedScores r) ∧ Total r ≤ 5 * worst) ∧
    Forall (λ pair : string * Z, pair.2 ≤ worst) pairs) as Hteam.
  { intros t r pairs Hrun.
    destruct (score_team_bound _ _ _ _ _ Hmax Hrun) as [Hadj Hpairs].
    destruct (score_team_Ret _ _ _ _ _ Hrun) as (_ & _ & _ & _ & Hlen & ->).
    repeat split; [done| |done]. by apply total_bound. }
  split; [|split].
  - intros t i c name adjusted. by apply score_slot_bound.
  - intros t r pairs Hrun. by apply Hteam in Hrun as [? _].
  - intros teams_data leaderboard pairs
      (worst' & scored & Hw' & Hscored & -> & ->)%aggregate_Ret.
    rewrite Hw in Hw'. injection Hw' as <-.
    apply mapM_Ret in Hscored.
    assert (Forall (λ rp : row * list (string * Z),
      (Forall (λ x, x ≤ worst) (AdjustedScores rp.1) ∧ Total rp.1 ≤ 5 * worst) ∧
      Forall (λ pair : string * Z, pair.2 ≤ worst) rp.2) scored) as Hall.
    { clear -Hscored Hteam.
      induction Hscored as [|t [r ps] ? ? Ht _ IH]; constructor; [|done].
      by apply (Hteam t). }
    split.
    + rewrite sorted_Permutation. apply Forall_fmap.
      eapply Forall_impl; [exact Hall|]. by intros [r ps] [? _].
    + apply Forall_concat, Forall_fmap.
      eapply Forall_impl; [exact Hall|]. by intros [r ps] [_ ?].
Qed.

Lemma C9_witness :
  ∃ leaderboard pairs,
    aggregate sample_roster sample_index = Ret (leaderboard, pairs) ∧
    worst_score sample_index = Ret 5 ∧
    Forall (λ r, Forall (λ x, x ≤ 5) (AdjustedScores r) ∧ Total r ≤ 5 * 5)
           leaderboard.
Proof.
  assert (resolvable sample_index 0) as Hres.
  { exists "a"%string, (mk_player "A" "E" "OK"). split; reflexivity. }
  destruct (C9_adjusted_scores_bounded sample_index 0 Hres)
    as (worst & Hw & _ & _ & Hrun).
  assert (worst = 5) as -> by (vm_compute in Hw; congruence).
  destruct (aggregate sample_roster sample_index) as [[leaderboard pairs]|e] eqn:E;
    [|vm_compute in E; discriminate E].
  exists leaderboard, pairs. split; [reflexivity|]. split; [exact Hw|].
  exact (proj1 (Hrun sample_roster leaderboard pairs E)).
Defined.

(** ** C10: the even-par token is exact, integer tokens are not *)

Section EvenParFacts.

Lemma literal_char_lower c : literal_char c → lower_char c = c.
Proof. by destruct c as [[] [] [] [] [] [] [] []]. Qed.

Lemma all_chars_lstrip P s : all_chars P s → all_chars P (lstrip s).
Proof.
  induction s as [|c s IH]; simpl; [done|].
  intros [Hc Hs]%andb_prop_elim. destruct (isspace c); [auto|].
  simpl. apply andb_prop_intro. by split.
Qed.

Lemma all_chars_rstrip P s : all_chars P s → all_chars P (rstrip s).
Proof.
  induction s as [|c s IH]; simpl; [done|].
  intros [Hc Hs]%andb_prop_elim. specialize (IH Hs).
  destruct (rstrip s) as [|d r].
  - destruct (isspace c); [done|]. simpl. apply andb_prop_intro. by split.
  - change (Is_true (P c && all_chars P (String d r))).
    apply andb_prop_intro. by split.
Qed.

Lemma all_chars_lower_literal s :
  all_chars literal_char s → lower s = s.
Proof.
  induction s as [|c s IH]; simpl; [done|].
  intros [Hc Hs]%andb_prop_elim. by rewrite literal_char_lower, IH.
Qed.

(** A spelling of the even-par token, up to case and outer blanks, has a
    character that no integer literal has. *)
Lemma even_par_spelling_not_literal s n :
  lower (strip s) = "e"%string → ¬ int_literal s n.
Proof.
  intros He [Hall _]%int_literal_chars.
  assert (all_chars literal_char (strip s)) as Hstrip.
  { by apply all_chars_lstrip, all_chars_rstrip. }
  rewrite (all_chars_lower_literal _ Hstrip) in He.
  by rewrite He in Hstrip.
Qed.

(** So has any string with the letter of the token in it. *)
Lemma even_par_letter_not_literal s n :
  some_char even_par_letter s → ¬ int_literal s n.
Proof.
  intros He [Hall _]%int_literal_chars.
  induction s as [|c s IH]; simpl in *; [done|].
  apply andb_prop_elim in Hall as [Hc Hs].
  apply orb_prop_elim in He as [He|He]; [|by apply IH].
  by destruct c as [[] [] [] [] [] [] [] []].
Qed.

End EvenParFacts.

(** C10.  Of the spellings of the even-par token only ["E"] itself gives
    0: any other string that trims and lower-cases to ["e"], such as
    [" E "] or ["e"], and any other string with the letter in it, is
    unavailable, which penalizes the player whatever the status; on ASCII
    text, a string that gives 0 is ["E"] or an integer literal of value 0.
    The decimal writing of an integer of at most 4300 digits is read
    between blanks, and after a plus sign when it is not negative;
    [" +3 "] gives 3. *)
Theorem C10_even_par_exact_integers_tolerant :
  normalize_topar (PStr "E") = Ret (Some 0) ∧
  (∀ s, lower (strip s) = "e"%string → s ≠ "E"%string →
     normalize_topar (PStr s) = Ret None) ∧
  (∀ s, some_char even_par_letter s → s ≠ "E"%string →
     normalize_topar (PStr s) = Ret None) ∧
  normalize_topar (PStr " E ") = Ret None ∧
  normalize_topar (PStr "e") = Ret None ∧
  (∀ worst status, adjust worst None status = Ret (worst, CutScore worst)) ∧
  (∀ s, ascii_text s → normalize_topar (PStr s) = Ret (Some 0) →
     s = "E"%string ∨ (int_literal s 0 ∧ within_limit s)) ∧
  (∀ n ws1 ws2, within_limit (str n) → spaces ws1 → spaces ws2 →
     normalize_topar (PStr (ws1 +:+ str n +:+ ws2)) = Ret (Some n)) ∧
  (∀ n ws1 ws2, 0 ≤ n → within_limit (str n) → spaces ws1 → spaces ws2 →
     normalize_topar (PStr (ws1 +:+ "+" +:+ str n +:+ ws2)) = Ret (Some n)) ∧
  normalize_topar (PStr " +3 ") = Ret (Some 3).
Proof.
  split; [done|]. split.
  { intros s He Hs. rewrite normalize_topar_total. f_equal.
    apply normalized_no_literal; [done|].
    intros n. by apply even_par_spelling_not_literal. }
  split.
  { intros s He Hs. rewrite normalize_topar_total. f_equal.
    apply normalized_no_literal; [done|].
    intros n. by apply even_par_letter_not_literal. }
  split; [done|]. split; [done|]. split; [done|]. split.
  { intros s _. rewrite normalize_topar_total. intros [= H].
    apply normalized_str in H as [[-> _]|H]; auto. }
  split; [|split; [|done]].
  - intros n ws1 ws2 Hlimit H1 H2. rewrite normalize_topar_total. f_equal.
    apply normalized_str. right.
    split; [by apply str_literal|by apply within_limit_between].
  - intros n ws1 ws2 Hn Hlimit H1 H2. rewrite normalize_topar_total. f_equal.
    apply normalized_str. right. split; [by apply plus_str_literal|].
    by apply (within_limit_between ("+" +:+ str n)), within_limit_plus.
Qed.

Lemma C10_witness :
  normalize_topar (PStr "  e ") = Ret None ∧
  normalize_topar (PStr "  +42 ") = Ret (Some 42) ∧
  normalize_topar (PStr (" " +:+ str (-7) +:+ "  ")) = Ret (Some (-7)).
Proof.
  destruct C10_even_par_exact_integers_tolerant
    as (_ & Hvariant & _ & _ & _ & _ & _ & Hblank & Hplus & _).
  split; [|split].
  - apply Hvariant; [reflexivity|discriminate].
  - apply (Hplus 42 "  "%string " "%string); [lia| |exact I|exact I].
    unfold within_limit. vm_compute. discriminate.
  - apply (Hblank (-7) " "%string "  "%string); [|exact I|exact I].
    unfold within_limit. vm_compute. discriminate.
Defined.

(** * Further properties of the code *)

#[local] Set Warnings "-clear-no-such-hyp".

(** ** The index of the feed, continued *)

Section FetchFacts.

Lemma index_players_app front : ∀ back acc,
  index_players (front ++ back) acc
  = acc' ← index_players front acc; index_players back acc'.
Proof.
  induction front as [|p front IH]; intros back acc; simpl; [done|].
  destruct (getitem p "full_name") as [v|e]; [|done]. rewrite !bind_Ret.
  destruct (strip_lower_method v) as [key|e]; [|done]. rewrite !bind_Ret.
  apply IH.
Qed.

Lemma index_players_named player_data : ∀ acc,
  Forall named player_data → ∃ live_data, index_players player_data acc = Ret live_data.
Proof.
  induction player_data as [|p rest IH]; intros acc Hall; simpl; [by eexists|].
  apply Forall_cons in Hall as [[key Hp] Hrest].
  unfold record_key in Hp. unfold getitem.
  destruct (p !! "full_name"%string) as [[| | | |fn| |]|]; try done.
  rewrite bind_Ret. simpl. by apply IH.
Qed.

Lemma index_players_unnamed p rest acc :
  ¬ named p → index_players (p :: rest) acc = Raise (naming_error p).
Proof.
  intros Hp. simpl. unfold naming_error, named, record_key, getitem in *.
  destruct (p !! "full_name"%string) as [[| | | |fn| |]|]; try done.
  destruct Hp. by eexists.
Qed.

Lemma index_players_Ret_named player_data : ∀ acc live_data,
  index_players player_data acc = Ret live_data → Forall named player_data.
Proof.
  induction player_data as [|p rest IH]; intros acc live_data; [by constructor|].
  destruct (decide (named p)) as [Hp|Hp].
  - simpl. destruct Hp as [key Hp]. unfold record_key in Hp. unfold getitem.
    destruct (p !! "full_name"%string) as [[| | | |fn| |]|] eqn:Hfn; try done.
    rewrite bind_Ret. simpl. intros Hrest. constructor; [|by eapply IH].
    exists key. unfold record_key. by rewrite Hfn.
  - by rewrite index_players_unnamed.
Qed.

End FetchFacts.

(** X1.  [fetch_live_scores] returns an index exactly when every record of
    the feed has a textual [full_name].  Otherwise the first record that has
    none decides the exception, whatever follows it: [KeyError] when the key
    is missing, [AttributeError] when the name is not text. *)
Theorem X1_fetch_needs_textual_names :
  (∀ player_data,
     (∃ live_data, fetch_live_scores (Ret player_data) = Ret live_data) ↔
     Forall named player_data) ∧
  (∀ good p rest,
     Forall named good → ¬ named p →
     fetch_live_scores (Ret (good ++ p :: rest)) = Raise (naming_error p)).
Proof.
  split.
  - intros player_data. split.
    + intros [live_data H]. by eapply index_players_Ret_named.
    + apply index_players_named.
  - intros good p rest Hgood Hp. unfold fetch_live_scores. rewrite bind_Ret.
    rewrite index_players_app.
    destruct (index_players_named good ∅ Hgood) as [acc ->].
    rewrite bind_Ret. by apply index_players_unnamed.
Qed.

Lemma X1_witness :
  fetch_live_scores (Ret (sample_feed ++ numbered_player :: [nameless_player]))
  = Raise AttributeError ∧
  fetch_live_scores (Ret (sample_feed ++ nameless_player :: [numbered_player]))
  = Raise KeyError.
Proof.
  destruct X1_fetch_needs_textual_names as [Hiff Hbad].
  assert (Forall named sample_feed) as Hgood.
  { apply (proj1 (Hiff sample_feed)). exists sample_index. reflexivity. }
  split.
  - apply (Hbad sample_feed numbered_player [nameless_player] Hgood).
    intros [key Hkey]. discriminate Hkey.
  - apply (Hbad sample_feed nameless_player [numbered_player] Hgood).
    intros [key Hkey]. discriminate Hkey.
Defined.

(** X2.  When two records of the feed have the same key, the index keeps
    the later one: a record is found under its key when no record after it
    in the feed has that key. *)
Theorem X2_later_record_replaces front p back key live_data :
  fetch_live_scores (Ret (front ++ p :: back)) = Ret live_data →
  record_key p = Some key →
  Some key ∉ record_key <$> back →
  live_data !! key = Some p.
Proof.
  unfold fetch_live_scores. rewrite bind_Ret, index_players_app.
  destruct (index_players front ∅) as [acc|e]; [|done]. rewrite bind_Ret.
  simpl. unfold record_key, getitem.
  destruct (p !! "full_name"%string) as [[| | | |fn| |]|]; try done.
  rewrite bind_Ret. simpl. intros Hback [= <-] Hkey.
  rewrite (index_players_other_key _ _ _ _ Hback Hkey).
  apply lookup_insert_eq.
Qed.

Lemma X2_witness :
  ∃ live_data,
    fetch_live_scores
      (Ret [mk_player "Tiger Woods" "9" "C"; mk_player " tiger woods " "-2" "OK"])
    = Ret live_data ∧
    live_data !! "tiger woods"%string = Some (mk_player " tiger woods " "-2" "OK").
Proof.
  eexists. split; [reflexivity|].
  apply (X2_later_record_replaces [mk_player "Tiger Woods" "9" "C"]
           (mk_player " tiger woods " "-2" "OK") []).
  - reflexivity.
  - reflexivity.
  - apply not_elem_of_nil.
Defined.

(** X3.  The guard of lines 78-80 stops the script, with its one message,
    exactly when the feed has no record: a feed with a record either fails
    to be indexed or gives an index that is not empty. *)
Theorem X3_guard_stops_on_empty_feed_only teams_data player_data message :
  script teams_data (Ret player_data) = Stopped message ↔
  player_data = [] ∧ message = "Could not fetch live Masters data."%string.
Proof.
  split.
  - unfold script.
    destruct (fetch_live_scores (Ret player_data)) as [live_data|e] eqn:Hfetch;
      [|done].
    destruct player_data as [|p rest].
    + injection Hfetch as <-. by intros [= <-].
    + destruct (index_players_covers _ _ _ Hfetch) as [_ Hcov].
      destruct (Hcov p) as (fn & _ & q & Hq); [left|].
      unfold guarded. destruct (not_dict live_data) eqn:Hempty.
      * apply Is_true_true_2, not_dict_empty in Hempty. subst live_data.
        by rewrite lookup_empty in Hq.
      * by destruct (aggregate teams_data live_data) as [[??]|?].
  - by intros [-> ->].
Qed.

(** ** When the team loop returns and when it raises *)

Section SlotFacts.

(** A turn of the inner loop, in one piece. *)
Lemma score_slot_unfold t live_data worst i :
  score_slot t live_data worst i =
  match t !! tier_key i with
  | None => Raise KeyError
  | Some raw =>
      match live_data !! lower (strip raw) with
      | None => Raise ValueError
      | Some p =>
          if not_dict p then Raise ValueError
          else
            pair ← adjust worst (topar_score p) (get p "status" (PStr "OK"));
            Ret (Cell (get p "id" PNone) (strip raw) pair.2,
                 (strip raw, pair.1))
      end
  end.
Proof.
  unfold score_slot, getitem.
  destruct (t !! tier_key i) as [raw|]; [|done]. rewrite bind_Ret.
  unfold get_player_score. rewrite strip_idemp.
  destruct (live_data !! lower (strip raw)) as [p|]; [|done].
  destruct (not_dict p); [done|].
  rewrite normalize_topar_total. fold (topar_score p). rewrite !bind_Ret.
  unfold unpack3. rewrite bind_Ret.
  by destruct (adjust _ _ _) as [[adjusted shown]|e].
Qed.

Lemma adjust_unfold worst score status :
  adjust worst score status =
  match score, status with
  | None, _ => Ret (worst, CutScore worst)
  | Some n, PStr st =>
      if bool_decide (upper st = "C"%string) then Ret (worst, CutScore worst)
      else Ret (n, PlainScore n)
  | Some _, _ => Raise AttributeError
  end.
Proof. by destruct score, status. Qed.

Lemma score_slot_is_Ret t live_data worst i :
  (∃ out, score_slot t live_data worst i = Ret out) ↔
  slot_resolves live_data t i.
Proof.
  rewrite score_slot_unfold. unfold slot_resolves. split.
  - intros [out Hout].
    destruct (t !! tier_key i) as [raw|]; [|done].
    destruct (live_data !! lower (strip raw)) as [p|] eqn:Hp; [|done].
    destruct (not_dict p) eqn:Hnp; [done|].
    exists raw, p. repeat split; try done.
    rewrite adjust_unfold in Hout.
    destruct (topar_score p); [|by left].
    destruct (get p "status" (PStr "OK")); try done. right. by eexists.
  - intros (raw & p & -> & -> & -> & Hstatus). rewrite adjust_unfold.
    destruct Hstatus as [->|[st ->]]; [by eexists|].
    destruct (topar_score p); [|by eexists].
    destruct (bool_decide _); by eexists.
Qed.

Lemma mapM_is_Ret {A B} (f : A → res B) l :
  (∃ k, mapM f l = Ret k) ↔ Forall (λ x, ∃ y, f x = Ret y) l.
Proof.
  split.
  - intros [k Hk%mapM_Ret].
    induction Hk; constructor; [by eexists|done].
  - induction 1 as [|x l [y Hy] _ [k Hk]]; [by exists []|].
    exists (y :: k). simpl. rewrite Hy, bind_Ret, Hk. done.
Qed.

Lemma score_team_is_Ret live_data worst t :
  (∃ out, score_team live_data worst t = Ret out) ↔
  is_Some (t !! "Person"%string) ∧
  ∀ i, i ∈ seq 1 6 → slot_resolves live_data t i.
Proof.
  unfold score_team, getitem.
  rewrite <-Forall_forall.
  assert (Forall (λ i, ∃ out, score_slot t live_data worst i = Ret out) (seq 1 6)
          ↔ Forall (slot_resolves live_data t) (seq 1 6)) as <-.
  { apply Forall_iff. intros i. apply score_slot_is_Ret. }
  rewrite <-mapM_is_Ret.
  destruct (t !! "Person"%string) as [person|].
  - rewrite bind_Ret. split.
    + intros [out Hout]. split; [done|].
      destruct (mapM (score_slot t live_data worst) (seq 1 6)); [by eexists|done].
    + intros [_ [slots ->]]. by eexists.
  - split; [by intros [??]|]. by intros [[??] _].
Qed.

End SlotFacts.

(** X4.  A run of the aggregation returns a leaderboard exactly when some
    record of the index has an integer to-par and every team of the roster
    has its ["Person"] and its six tiers, each leading to a record of the
    index with fields, whose status is text unless its to-par has no
    integer. *)
Theorem X4_aggregate_returns_iff teams_data live_data :
  (∃ out, aggregate teams_data live_data = Ret out) ↔
  (∃ n, resolvable live_data n) ∧
  Forall (λ t : team,
            is_Some (t !! "Person"%string) ∧
            ∀ i, i ∈ seq 1 6 → slot_resolves live_data t i) teams_data.
Proof.
  unfold aggregate. split.
  - intros [out Hout].
    destruct (worst_score live_data) as [worst|] eqn:Hw; [|done].
    rewrite bind_Ret in Hout. split.
    + exists worst. by apply worst_score_Ret in Hw as [? _].
    + assert (Forall (λ t, ∃ out, score_team live_data worst t = Ret out)
                     teams_data) as Hall; [|
        eapply Forall_impl; [exact Hall|];
        intros t Ht; by apply (score_team_is_Ret live_data worst)].
      apply mapM_is_Ret.
      destruct (mapM (score_team live_data worst) teams_data); [by eexists|done].
  - intros [[n Hn] Hteams].
    destruct (worst_score_defined _ _ Hn) as [worst ->]. rewrite bind_Ret.
    assert (Forall (λ t, ∃ out, score_team live_data worst t = Ret out)
                   teams_data) as Hall.
    { eapply Forall_impl; [exact Hteams|].
      intros t Ht. by apply score_team_is_Ret. }
    apply mapM_is_Ret in Hall as [scored ->]. by eexists.
Qed.

Lemma X4_witness :
  (∃ n, resolvable sample_index n) ∧
  Forall (λ t : team,
            is_Some (t !! "Person"%string) ∧
            ∀ i, i ∈ seq 1 6 → slot_resolves sample_index t i) sample_roster.
Proof.
  apply (proj1 (X4_aggregate_returns_iff sample_roster sample_index)).
  destruct (aggregate sample_roster sample_index) as [out|e] eqn:E.
  - by exists out.
  - vm_compute in E. discriminate E.
Defined.

(** X5.  The three ways a turn of the inner loop raises, and no other: a
    team without the tier ([KeyError]); a name that leads to no record, or
    to a record without fields, because the sentinel is a pair
    ([ValueError]); a record with an integer to-par and a status that is
    not text ([AttributeError]).  A status that is not text does no harm
    when the to-par has no integer: the player is penalized before the
    status is looked at. *)
Theorem X5_slot_failures t live_data worst i :
  (score_slot t live_data worst i = Raise KeyError ↔ t !! tier_key i = None) ∧
  (score_slot t live_data worst i = Raise ValueError ↔
   ∃ raw, t !! tier_key i = Some raw ∧
          ∀ p, live_data !! lower (strip raw) = Some p → not_dict p) ∧
  (score_slot t live_data worst i = Raise AttributeError ↔
   ∃ raw p n, t !! tier_key i = Some raw ∧
              live_data !! lower (strip raw) = Some p ∧ not_dict p = false ∧
              topar_score p = Some n ∧
              ∀ st, get p "status" (PStr "OK") ≠ PStr st) ∧
  score_slot t live_data worst i ≠ Raise TypeError ∧
  score_slot t live_data worst i ≠ Raise RequestException ∧
  (∀ raw p, t !! tier_key i = Some raw →
            live_data !! lower (strip raw) = Some p → not_dict p = false →
            topar_score p = None →
            score_slot t live_data worst i
            = Ret (Cell (get p "id" PNone) (strip raw) (CutScore worst),
                   (strip raw, worst))).
Proof.
  rewrite score_slot_unfold.
  destruct (t !! tier_key i) as [raw|]; [|naive_solver].
  destruct (live_data !! lower (strip raw)) as [p|] eqn:Hp; [|naive_solver].
  assert (∀ raw' q, Some raw = Some raw' →
            live_data !! lower (strip raw') = Some q → q = p) as Hsame.
  { intros ? ? [= <-] ?. congruence. }
  destruct (not_dict p) eqn:Hnp.
  { repeat split; try naive_solver.
    - intros (r & q & n & Hr & Hq & Hf & _).
      rewrite (Hsame _ _ Hr Hq) in Hf. congruence.
    - intros r q Hr Hq Hf. rewrite (Hsame _ _ Hr Hq) in Hf. congruence. }
  rewrite adjust_unfold.
  destruct (topar_score p) as [n|] eqn:Hn;
    [destruct (get p "status" (PStr "OK")) as [| | | |st| |] eqn:Hst;
       try destruct (bool_decide (upper st = "C"%string))|];
    repeat split; try naive_solver;
    try (intros (r & Hr & Hall); injection Hr as <-;
         specialize (Hall p Hp); by rewrite Hnp in Hall);
    intros _; exists raw, p, n; repeat split; try done;
    intros st'; by rewrite Hst.
Qed.

Lemma X5_witness :
  score_slot null_status_team null_status_index 2 1 = Raise AttributeError ∧
  score_slot null_status_team null_status_index 2 2
  = Ret (Cell PNone "W" (CutScore 2), ("W"%string, 2)).
Proof.
  destruct (X5_slot_failures null_status_team null_status_index 2 1)
    as (_ & _ & Hattr & _).
  destruct (X5_slot_failures null_status_team null_status_index 2 2)
    as (_ & _ & _ & _ & _ & Hpen).
  split.
  - apply (proj2 Hattr).
    exists "D"%string, (null_status_player "D" "2"), 2.
    repeat split; try reflexivity. intros st Hst. discriminate Hst.
  - apply (Hpen "W"%string (null_status_player "W" "WD")); reflexivity.
Defined.

(** ** The total of a team *)

Section TotalFacts.

#[local] Instance key_le_id_antisymm : AntiSymm (=) (key_le (id : Z → Z)).
Proof. intros x y. unfold key_le. simpl. lia. Qed.

(** Sorting numbers forgets the order they came in. *)
Lemma sorted_id_Permutation (l k : list Z) :
  l ≡ₚ k → sorted id l = sorted id k.
Proof.
  intros Hperm.
  apply (StronglySorted_unique (key_le id));
    [apply sorted_StronglySorted..|].
  by rewrite !sorted_Permutation.
Qed.

Lemma sum_mono (l' l : list Z) : Forall2 Z.le l' l → sum l' ≤ sum l.
Proof. induction 1; rewrite ?sum_cons; [done|lia]. Qed.

(** Against every element of the larger list stands one of the smaller
    list that is below it by no more than the sums differ. *)
Lemma sum_gap (l' l : list Z) m :
  Forall2 Z.le l' l → m ∈ l → ∃ m', m' ∈ l' ∧ m - m' ≤ sum l - sum l'.
Proof.
  induction 1 as [|x' x l' l Hx Hl IH]; [by intros ?%elem_of_nil|].
  rewrite !sum_cons. intros [->|Hm]%elem_of_cons.
  - exists x'. split; [left|]. apply sum_mono in Hl. lia.
  - destruct (IH Hm) as (m' & Hm' & Hgap). exists m'. split; [by right|lia].
Qed.

Lemma best_five_mono (l' l : list Z) :
  length l = 6%nat → Forall2 Z.le l' l →
  sum (take 5 (sorted id l')) ≤ sum (take 5 (sorted id l)).
Proof.
  intros Hlen Hle.
  assert (length l' = 6%nat) as Hlen'.
  { by rewrite (Forall2_length _ _ _ Hle). }
  destruct (best_five_of_six l Hlen)
    as (m & kept & _ & _ & _ & Hmax & _ & ->).
  destruct (best_five_of_six l' Hlen')
    as (m' & kept' & _ & _ & _ & Hmax' & _ & ->).
  apply max_Ret in Hmax as [Hm _]. apply max_Ret in Hmax' as [_ Hm'].
  destruct (sum_gap l' l m Hle Hm) as (x & Hx & Hgap).
  rewrite Forall_forall in Hm'. specialize (Hm' x Hx). lia.
Qed.

Lemma mapM_fmap {A B C} (f : B → res C) (g : A → B) l :
  mapM f (g <$> l) = mapM (f ∘ g) l.
Proof.
  induction l as [|x l IH]; [done|].
  change (f (g x) ≫= (λ y, mapM f (g <$> l) ≫= (λ k, mret (y :: k)))
          = f (g x) ≫= (λ y, mapM (f ∘ g) l ≫= (λ k, mret (y :: k)))).
  by rewrite IH.
Qed.

Lemma mapM_Ret_omap {A B} (f : A → res B) l k :
  mapM f l = Ret k →
  k = omap (λ x, match f x with Ret y => Some y | Raise _ => None end) l.
Proof.
  intros H%mapM_Ret. induction H as [|x y l k Hx _ IH]; [done|].
  simpl. rewrite Hx. simpl. by f_equal.
Qed.

Lemma mapM_Permutation {A B} (f : A → res B) l l' k k' :
  l ≡ₚ l' → mapM f l = Ret k → mapM f l' = Ret k' → k ≡ₚ k'.
Proof.
  intros Hperm ->%mapM_Ret_omap ->%mapM_Ret_omap. by rewrite Hperm.
Qed.

(** The turn of the inner loop looks at the team through its entry for
    the tier only. *)
Lemma score_slot_entry t t' live_data worst i j :
  t !! tier_key i = t' !! tier_key j →
  score_slot t live_data worst i = score_slot t' live_data worst j.
Proof. intros H. rewrite !score_slot_unfold. by rewrite H. Qed.

Lemma score_team_row live_data worst t r pairs :
  score_team live_data worst t = Ret (r, pairs) →
  ∃ person slots,
    t !! "Person"%string = Some person ∧
    mapM (score_slot t live_data worst) (seq 1 6) = Ret slots ∧
    r = Row person slots.*1 slots.*2.*2
            (sum (take 5 (sorted id slots.*2.*2))) ∧
    pairs = slots.*2.
Proof.
  unfold score_team, getitem.
  destruct (t !! "Person"%string) as [person|]; [|done]. rewrite bind_Ret.
  destruct (mapM (score_slot t live_data worst) (seq 1 6)) as [slots|] eqn:Hs;
    [|done].
  rewrite bind_Ret. intros [= <- <-]. by exists person, slots.
Qed.

End TotalFacts.

(** X6.  The total of a team does not depend on the tiers in which its
    players were picked: two teams with the same six entries in any order
    of tiers get the same adjusted scores up to order, and the same
    total. *)
Theorem X6_total_ignores_tier_order live_data worst t t' r r' pairs pairs' :
  score_team live_data worst t = Ret (r, pairs) →
  score_team live_data worst t' = Ret (r', pairs') →
  picks t ≡ₚ picks t' →
  AdjustedScores r ≡ₚ AdjustedScores r' ∧ Total r = Total r'.
Proof.
  intros (person & slots & _ & Hslots & -> & _)%score_team_row
         (person' & slots' & _ & Hslots' & -> & _)%score_team_row Hperm.
  simpl.
  assert (slots ≡ₚ slots') as Hsame.
  { set (entry_slot := λ entry : option string,
      score_slot (from_option (λ raw, {[ tier_key 1 := raw ]}) ∅ entry)
                 live_data worst 1).
    assert (∀ u, mapM (score_slot u live_data worst) (seq 1 6)
                 = mapM entry_slot (picks u)) as Hentry.
    { intros u. unfold picks. rewrite mapM_fmap.
      assert (∀ l, mapM (score_slot u live_data worst) l
                   = mapM (entry_slot ∘ (λ i, u !! tier_key i)) l) as H.
      { induction l as [|i l IH]; simpl; [done|]. rewrite IH. f_equal.
        unfold entry_slot. apply score_slot_entry.
        destruct (u !! tier_key i); simpl;
          [by rewrite lookup_singleton_eq|by rewrite lookup_empty]. }
      apply H. }
    rewrite Hentry in Hslots, Hslots'.
    by eapply mapM_Permutation. }
  assert (slots.*2.*2 ≡ₚ slots'.*2.*2) as Hadj by (by rewrite Hsame).
  split; [done|]. by rewrite (sorted_id_Permutation _ _ Hadj).
Qed.

Lemma X6_witness :
  ∃ r r' pairs pairs',
    score_team sample_index 5 sample_team = Ret (r, pairs) ∧
    score_team sample_index 5 shuffled_team = Ret (r', pairs') ∧
    AdjustedScores r' = [5; -3; 0; 5; -3; 0] ∧
    Total r = Total r'.
Proof.
  assert (∃ r pairs, score_team sample_index 5 sample_team = Ret (r, pairs))
    as (r & pairs & Hr) by (vm_compute; eexists _, _; reflexivity).
  assert (∃ r' pairs',
            score_team sample_index 5 shuffled_team = Ret (r', pairs') ∧
            AdjustedScores r' = [5; -3; 0; 5; -3; 0])
    as (r' & pairs' & Hr' & Hadj)
    by (vm_compute; eexists _, _; split; reflexivity).
  exists r, r', pairs, pairs'. repeat split; try assumption.
  refine (proj2 (X6_total_ignores_tier_order _ _ _ _ _ _ _ _ Hr Hr' _)).
  assert (picks shuffled_team = reverse (picks sample_team)) as ->
    by (vm_compute; reflexivity).
  symmetry. apply reverse_Permutation.
Defined.

(** X7.  A total never gets worse when no adjusted score gets worse: if
    the six adjusted scores of one scoring of a team are, slot by slot, at
    most those of another (of any team on any feed), so is the total. *)
Theorem X7_total_is_monotone live_data worst t r pairs
    live_data' worst' t' r' pairs' :
  score_team live_data worst t = Ret (r, pairs) →
  score_team live_data' worst' t' = Ret (r', pairs') →
  Forall2 Z.le (AdjustedScores r') (AdjustedScores r) →
  Total r' ≤ Total r.
Proof.
  intros (_ & _ & _ & _ & Hlen & ->)%score_team_Ret
         (_ & _ & _ & _ & _ & ->)%score_team_Ret Hle.
  by apply best_five_mono.
Qed.

Lemma X7_witness :
  ∃ r pairs r' pairs',
    score_team sample_index 5 cut_team = Ret (r, pairs) ∧
    score_team sample_index 5 sample_team = Ret (r', pairs') ∧
    AdjustedScores r' = [0; -3; 5; 0; -3; 5] ∧
    Total r' ≤ Total r.
Proof.
  assert (∃ r pairs,
            score_team sample_index 5 cut_team = Ret (r, pairs) ∧
            AdjustedScores r = replicate 6 5)
    as (r & pairs & Hr & Hadj)
    by (vm_compute; eexists _, _; split; reflexivity).
  assert (∃ r' pairs',
            score_team sample_index 5 sample_team = Ret (r', pairs') ∧
            AdjustedScores r' = [0; -3; 5; 0; -3; 5])
    as (r' & pairs' & Hr' & Hadj')
    by (vm_compute; eexists _, _; split; reflexivity).
  exists r, pairs, r', pairs'. repeat split; try assumption.
  apply (X7_total_is_monotone _ _ _ _ _ _ _ _ _ _ Hr Hr').
  rewrite Hadj, Hadj'. repeat constructor; lia.
Defined.

Section ShapeFacts.

Lemma score_slot_penalized t live_data worst i c name adjusted a :
  score_slot t live_data worst i = Ret (c, (name, adjusted)) →
  cell_score c = CutScore a → adjusted = worst.
Proof.
  intros (raw & p & _ & _ & _ & _ & _ & Hadj)%score_slot_Ret Hcut.
  apply adjust_Ret in Hadj as [[-> _]|[_ Hplain]]; [done|congruence].
Qed.

Lemma score_slot_names t live_data worst i c name adjusted :
  score_slot t live_data worst i = Ret (c, (name, adjusted)) →
  ∃ raw, t !! tier_key i = Some raw ∧ name = strip raw ∧ cell_name c = name.
Proof.
  intros (raw & p & Hraw & -> & _ & _ & -> & _)%score_slot_Ret.
  by exists raw.
Qed.

Lemma sorted_replicate n (w : Z) : sorted id (replicate n w) = replicate n w.
Proof.
  induction n as [|n IH]; [done|].
  change (insert_by id w (sorted id (replicate n w)) = w :: replicate n w).
  rewrite IH. destruct n; [done|]. simpl. by rewrite decide_True.
Qed.

End ShapeFacts.

(** X8.  A team whose six cells are all shown as cut has six adjusted
    scores equal to the worst score, and five times the worst score as its
    total. *)
Theorem X8_all_cut_team live_data worst t r pairs :
  score_team live_data worst t = Ret (r, pairs) →
  Forall (λ c, ∃ a, cell_score c = CutScore a) (Players r) →
  AdjustedScores r = replicate 6 worst ∧ Total r = 5 * worst.
Proof.
  intros Hrun Hcut.
  destruct (score_team_Ret _ _ _ _ _ Hrun) as (_ & _ & _ & _ & Hlen & Htotal).
  destruct (score_team_row _ _ _ _ _ Hrun) as (person & slots & _ & Hslots & -> & _).
  apply mapM_Ret in Hslots. simpl in Hcut, Hlen, Htotal |- *.
  assert (Forall (λ x, x = worst) slots.*2.*2) as Hall.
  { clear Hlen Htotal Hrun. rewrite <-list_fmap_compose. apply Forall_fmap.
    apply Forall_fmap in Hcut.
    induction Hslots as [|i [c [name a]] ? ? Hi _ IH]; [constructor|].
    apply Forall_cons in Hcut as [[a' Hc] Hcut].
    constructor; [|by apply IH]. simpl in *.
    by eapply score_slot_penalized. }
  assert (slots.*2.*2 = replicate 6 worst) as Hrep.
  { symmetry. apply replicate_as_Forall_2; [done|].
    eapply Forall_impl; [exact Hall|]. by intros ? ->. }
  split; [done|]. rewrite Hrep.
  rewrite sorted_replicate. simpl. unfold sum. simpl. lia.
Qed.

Lemma X8_witness :
  ∃ r pairs,
    score_team sample_index 5 cut_team = Ret (r, pairs) ∧
    AdjustedScores r = replicate 6 5 ∧ Total r = 5 * 5.
Proof.
  assert (∃ r pairs,
            score_team sample_index 5 cut_team = Ret (r, pairs) ∧
            Forall (λ c, ∃ a, cell_score c = CutScore a) (Players r))
    as (r & pairs & Hrun & Hcut).
  { vm_compute. eexists _, _. split; [reflexivity|].
    repeat constructor; by eexists. }
  exists r, pairs. split; [exact Hrun|].
  exact (X8_all_cut_team _ _ _ _ _ Hrun Hcut).
Defined.

(** X9.  The shape of what a run returns.  There is one row per team: the
    leaderboard is the rows of the teams in roster order, rearranged; the
    row of a team carries its ["Person"], six cells and six adjusted
    scores, and the cells are named after the trimmed entries of the team,
    tier by tier.  The list of pairs has six entries per team and stays in
    roster order, whatever the sort did: it is the names of the cells with
    the adjusted scores of the rows, team after team. *)
Theorem X9_shape_of_the_result teams_data live_data leaderboard pairs :
  aggregate teams_data live_data = Ret (leaderboard, pairs) →
  length leaderboard = length teams_data ∧
  length pairs = (6 * length teams_data)%nat ∧
  ∃ rows,
    leaderboard ≡ₚ rows ∧
    Forall2 (λ (t : team) r,
               t !! "Person"%string = Some (Team r) ∧
               length (AdjustedScores r) = 6%nat ∧
               Forall2 (λ i c, ∃ raw, t !! tier_key i = Some raw ∧
                                      cell_name c = strip raw)
                       (seq 1 6) (Players r))
            teams_data rows ∧
    pairs = rows ≫= (λ r, zip (cell_name <$> Players r) (AdjustedScores r)).
Proof.
  intros (worst & scored & _ & Hscored & -> & ->)%aggregate_Ret.
  apply mapM_Ret in Hscored.
  assert (Forall2 (λ (t : team) (rp : row * list (string * Z)),
            (t !! "Person"%string = Some (Team rp.1) ∧
             length (AdjustedScores rp.1) = 6%nat ∧
             Forall2 (λ i c, ∃ raw, t !! tier_key i = Some raw ∧
                                    cell_name c = strip raw)
                     (seq 1 6) (Players rp.1)) ∧
            length rp.2 = 6%nat ∧
            rp.2 = zip (cell_name <$> Players rp.1) (AdjustedScores rp.1))
          teams_data scored) as Hall.
  { clear -Hscored. induction Hscored as [|t [r ps] ? ? Ht _ IH];
      constructor; [|done]. simpl.
    destruct (score_team_row _ _ _ _ _ Ht)
      as (person & slots & Hperson & Hslots & -> & ->).
    simpl. apply mapM_Ret in Hslots.
    pose proof (Forall2_length _ _ _ Hslots) as Hlen. simpl in Hlen.
    repeat split; try done.
    - by rewrite !length_fmap.
    - apply Forall2_fmap_r.
      eapply Forall2_impl; [exact Hslots|].
      intros i [c [name a]] (raw & Hraw & -> & Hc)%score_slot_names.
      by exists raw.
    - by rewrite length_fmap.
    - clear -Hslots.
      induction Hslots as [|i [c [name a]] ? ? Hi _ IHs]; [done|].
      simpl. f_equal; [|done].
      by destruct (score_slot_names _ _ _ _ _ _ _ Hi) as (raw & _ & _ & ->). }
  split; [|split].
  - by rewrite sorted_Permutation, length_fmap, (Forall2_length _ _ _ Hall).
  - rewrite (Forall2_length _ _ _ Hall).
    clear -Hall. induction Hall as [|t [r ps] ? ? (_ & Hlen & _) _ IH]; [done|].
    simpl in Hlen. rewrite !fmap_cons, length_cons. simpl concat.
    rewrite length_app, Hlen, IH. lia.
  - exists scored.*1. split; [apply sorted_Permutation|]. split.
    + apply Forall2_fmap_r. eapply Forall2_impl; [exact Hall|].
      by intros t [r ps] [? _].
    + clear -Hall. induction Hall as [|t [r ps] ? ? (_ & _ & Hps) _ IH]; [done|].
      simpl in Hps. rewrite !fmap_cons. simpl. by rewrite Hps, IH.
Qed.

Lemma X9_witness :
  ∃ leaderboard pairs,
    aggregate sample_roster sample_index = Ret (leaderboard, pairs) ∧
    length leaderboard = 3%nat ∧ length pairs = 18%nat ∧
    Team <$> leaderboard = ["Bob"; "Ann"; "Cat"]%string ∧
    take 6 pairs.*1 = ["A"; "B"; "C"; "a"; "b"; "C"]%string.
Proof.
  assert (∃ leaderboard pairs,
    aggregate sample_roster sample_index = Ret (leaderboard, pairs) ∧
    Team <$> leaderboard = ["Bob"; "Ann"; "Cat"]%string ∧
    take 6 pairs.*1 = ["A"; "B"; "C"; "a"; "b"; "C"]%string)
    as (leaderboard & pairs & Hrun & Hteams & Hnames).
  { vm_compute. eexists _, _. repeat split; reflexivity. }
  exists leaderboard, pairs.
  destruct (X9_shape_of_the_result _ _ _ _ Hrun) as (Hrows & Hpairs & _).
  repeat split; assumption.
Defined.

(** ** The sidebar *)

Example sidebar_sample :
  ∃ leaderboard pairs,
    aggregate sample_roster sample_index = Ret (leaderboard, pairs) ∧
    sidebar sample_roster leaderboard pairs
    = Shown (Summary "Bob" ("B"%string, -3)
        [("Tier 1", [("A", 1); ("B", 1); ("C", 1)]);
         ("Tier 2", [("B", 2); ("c", 1)]);
         ("Tier 3", [("C", 1); ("B", 1); ("A", 1)]);
         ("Tier 4", [("a", 2); ("B", 1)]);
         ("Tier 5", [("B", 2); ("b", 1)]);
         ("Tier 6", [("C", 1); ("B", 1); ("b", 1)])]%string%nat).
Proof. vm_compute. eexists _, _. split; reflexivity. Qed.

Section SidebarFacts.

Lemma first_least_step {A} (key : A → Z) seen best i y :
  first_least key seen i best →
  ∃ i', first_least key (seen ++ [y]) i'
          (if decide (key y < key best) then y else best).
Proof.
  intros [Hi Hleast]. pose proof (lookup_lt_Some _ _ _ Hi) as Hlt.
  destruct (decide (key y < key best)) as [Hy|Hy].
  - exists (length seen). split.
    + by rewrite lookup_app_r, Nat.sub_diag.
    + intros j z Hz. destruct (decide (j < length seen)%nat) as [Hj|Hj].
      * rewrite lookup_app_l in Hz by done.
        destruct (Hleast j z Hz) as [Hle _]. lia.
      * split; [|lia].
        rewrite lookup_app_r in Hz by lia.
        destruct (j - length seen)%nat; simplify_eq/=; lia.
  - exists i. split.
    + by rewrite lookup_app_l.
    + intros j z Hz. destruct (decide (j < length seen)%nat) as [Hj|Hj].
      * rewrite lookup_app_l in Hz by done. by apply Hleast.
      * rewrite lookup_app_r in Hz by lia.
        destruct (j - length seen)%nat; simplify_eq/=; split; lia.
Qed.

Lemma first_least_foldl {A} (key : A → Z) rest : ∀ seen best i,
  first_least key seen i best →
  ∃ i', first_least key (seen ++ rest) i'
          (foldl (λ best y, if decide (key y < key best) then y else best)
                 best rest).
Proof.
  induction rest as [|y rest IH]; intros seen best i Hbest; simpl.
  - rewrite app_nil_r. by exists i.
  - destruct (first_least_step key seen best i y Hbest) as [i' Hstep].
    destruct (IH _ _ _ Hstep) as [i'' Hrest].
    exists i''. by rewrite <-app_assoc in Hrest.
Qed.

Lemma min_by_Ret {A} (key : A → Z) l x :
  min_by key l = Ret x → ∃ i, first_least key l i x.
Proof.
  destruct l as [|y rest]; [done|]. intros [= <-].
  apply (first_least_foldl key rest [y] y 0%nat).
  split; [done|]. intros [|j] z; [|done]. intros [= <-]. split; lia.
Qed.

Lemma aggregate_complete teams_data live_data out :
  aggregate teams_data live_data = Ret out → Forall complete teams_data.
Proof.
  destruct out as [leaderboard pairs].
  intros (worst & scored & _ & Hscored & _)%aggregate_Ret.
  assert (∃ k, mapM (score_team live_data worst) teams_data = Ret k) as H
    by (by eexists).
  apply mapM_is_Ret in H. eapply Forall_impl; [exact H|].
  intros t [_ Hslots]%score_team_is_Ret i Hi.
  destruct (Hslots i Hi) as (raw & _ & -> & _). by eexists.
Qed.

Lemma aggregate_lengths teams_data live_data leaderboard pairs :
  aggregate teams_data live_data = Ret (leaderboard, pairs) →
  length leaderboard = length teams_data ∧
  length pairs = (6 * length teams_data)%nat.
Proof.
  intros (worst & scored & _ & Hscored & -> & ->)%aggregate_Ret.
  apply mapM_Ret in Hscored.
  rewrite sorted_Permutation, length_fmap, <-(Forall2_length _ _ _ Hscored).
  split; [done|]. rewrite (Forall2_length _ _ _ Hscored).
  induction Hscored as [|t [r ps] ? ? Ht _ IH]; [done|].
  destruct (score_team_Ret _ _ _ _ _ Ht) as (slots & _ & _ & Hadj & Hlen & _).
  rewrite Hadj, length_fmap in Hlen.
  rewrite !fmap_cons, length_cons. simpl concat.
  rewrite length_app, IH. simpl. lia.
Qed.

Lemma count_tiers_complete t tiers : ∀ tier_counts,
  (∀ i, i ∈ tiers → is_Some (t !! tier_key i)) →
  ∃ counted, count_tiers t tiers tier_counts = Ret counted.
Proof.
  induction tiers as [|i tiers IH]; intros tier_counts Hall; simpl;
    [by eexists|].
  destruct (Hall i) as [raw Hraw]; [left|].
  unfold getitem. rewrite Hraw, bind_Ret.
  apply IH. intros j Hj. apply Hall. by right.
Qed.

Lemma count_teams_complete teams_data : ∀ tier_counts,
  Forall complete teams_data →
  ∃ counted, count_teams teams_data tier_counts = Ret counted.
Proof.
  induction teams_data as [|t rest IH]; intros tier_counts Hall;
    [by eexists|].
  apply Forall_cons in Hall as [Ht Hrest].
  destruct (count_tiers_complete t (seq 1 6) tier_counts Ht) as [counted Hc].
  change (count_teams (t :: rest) tier_counts)
    with (counted ← count_tiers t (seq 1 6) tier_counts;
          count_teams rest counted).
  rewrite Hc, bind_Ret. by apply IH.
Qed.

End SidebarFacts.

(** X10.  After a run that returned, the sidebar is shown exactly when the
    roster has a team.  With an empty roster [leaderboard[0]] raises
    [IndexError]; with a team, the minimum is taken over six pairs per team
    and the counting loop reads the tiers that the scoring loop has read,
    so nothing raises. *)
Theorem X10_sidebar_needs_a_team teams_data live_data leaderboard pairs :
  aggregate teams_data live_data = Ret (leaderboard, pairs) →
  (teams_data = [] →
   sidebar teams_data leaderboard pairs = Failed IndexError) ∧
  (teams_data ≠ [] →
   ∃ s, sidebar teams_data leaderboard pairs = Shown s).
Proof.
  intros Hrun. destruct (aggregate_lengths _ _ _ _ Hrun) as [Hlb Hpairs].
  pose proof (aggregate_complete _ _ _ Hrun) as Hcomplete.
  split.
  - intros ->. by destruct leaderboard.
  - intros Hteams. unfold sidebar.
    destruct teams_data as [|t rest]; [done|].
    destruct leaderboard as [|first lb]; [done|].
    destruct pairs as [|pair pairs]; [done|]. simpl min_by.
    unfold count_picks.
    destruct (count_teams_complete (t :: rest) [] Hcomplete) as [counted ->].
    by eexists.
Qed.

Lemma X10_witness :
  ∃ leaderboard pairs s,
    aggregate sample_roster sample_index = Ret (leaderboard, pairs) ∧
    sidebar sample_roster leaderboard pairs = Shown s ∧
    sidebar [] [] [] = Failed IndexError.
Proof.
  destruct (aggregate sample_roster sample_index) as [[leaderboard pairs]|e] eqn:E;
    [|vm_compute in E; discriminate E].
  destruct (X10_sidebar_needs_a_team _ _ _ _ E) as [_ Hshown].
  destruct Hshown as [s Hs]; [discriminate|].
  exists leaderboard, pairs, s. split; [reflexivity|]. split; [exact Hs|].
  apply (proj1 (X10_sidebar_needs_a_team [] sample_index [] [] eq_refl)).
  reflexivity.
Defined.

Section LeaderFacts.

(** The head of the sorted list is the first element of least key of the
    list that was sorted. *)
Lemma sorted_head_first_least {A} (key : A → Z) l x rest :
  sorted key l = x :: rest → ∃ i, first_least key l i x.
Proof.
  revert x rest. induction l as [|a l IH]; intros x rest; [done|].
  change (sorted key (a :: l)) with (insert_by key a (sorted key l)).
  destruct (sorted key l) as [|y r] eqn:Hl.
  - assert (l = []) as ->.
    { apply Permutation_nil. by rewrite <-(sorted_Permutation key l), Hl. }
    intros [= <- <-]. exists 0%nat. split; [done|].
    intros [|j] z; [|done]. intros [= <-]. split; lia.
  - destruct (IH y r eq_refl) as (i & Hi & Hleast). simpl.
    destruct (decide (key a ≤ key y)) as [Hay|Hay]; intros [= <- <-].
    + exists 0%nat. split; [done|]. intros [|j] z.
      * intros [= <-]. split; lia.
      * simpl. intros Hz. destruct (Hleast j z Hz) as [Hle _]. split; lia.
    + exists (S i). split; [done|]. intros [|j] z.
      * intros [= <-]. split; lia.
      * simpl. intros Hz. destruct (Hleast j z Hz) as [Hle Htie].
        split; [done|]. intros Heq. specialize (Htie Heq). lia.
Qed.

Lemma sum_lower_bound (l : list Z) b :
  Forall (λ x, b ≤ x) l → Z.of_nat (length l) * b ≤ sum l.
Proof.
  induction 1 as [|x l Hx _ IH]; [done|].
  rewrite sum_cons, length_cons. lia.
Qed.

Lemma elem_of_concat {A} (x : A) ls l : x ∈ l → l ∈ ls → x ∈ concat ls.
Proof.
  intros Hx. induction ls as [|k ls IH]; [by intros ?%elem_of_nil|].
  simpl. rewrite elem_of_app. intros [->|Hl]%elem_of_cons; auto.
Qed.

Lemma sidebar_Shown teams_data leaderboard pairs s :
  sidebar teams_data leaderboard pairs = Shown s →
  ∃ first rest tier_counts,
    leaderboard = first :: rest ∧ leader s = Team first ∧
    min_by snd pairs = Ret (best_player s) ∧
    count_picks teams_data = Ret tier_counts ∧
    tier_picks s = listing tier_counts.
Proof.
  unfold sidebar. destruct leaderboard as [|first rest]; [done|].
  destruct (min_by snd pairs) as [best|]; [|done].
  destruct (count_picks teams_data) as [tier_counts|]; [|done].
  intros [= <-]. by exists first, rest, tier_counts.
Qed.

End LeaderFacts.

(** X11.  The leader that the sidebar names is the team of least total,
    and of the teams with that total the one that comes first in the
    roster. *)
Theorem X11_leader_is_first_of_least_total
    teams_data live_data leaderboard pairs s :
  aggregate teams_data live_data = Ret (leaderboard, pairs) →
  sidebar teams_data leaderboard pairs = Shown s →
  ∃ worst rows i r,
    Forall2 (λ t r, ∃ ps, score_team live_data worst t = Ret (r, ps))
            teams_data rows ∧
    first_least Total rows i r ∧
    leader s = Team r.
Proof.
  intros (worst & scored & _ & Hscored & -> & _)%aggregate_Ret
         (first & rest & _ & Hlb & Hleader & _)%sidebar_Shown.
  destruct (sorted_head_first_least _ _ _ _ Hlb) as [i Hi].
  exists worst, scored.*1, i, first. split; [|by split].
  apply mapM_Ret in Hscored. apply Forall2_fmap_r.
  eapply Forall2_impl; [exact Hscored|]. intros t [r ps] Ht. by exists ps.
Qed.

Lemma X11_witness :
  ∃ leaderboard pairs s,
    aggregate sample_roster sample_index = Ret (leaderboard, pairs) ∧
    sidebar sample_roster leaderboard pairs = Shown s ∧
    leader s = "Bob"%string ∧
    ∃ worst rows i r,
      Forall2 (λ t r, ∃ ps, score_team sample_index worst t = Ret (r, ps))
              sample_roster rows ∧
      first_least Total rows i r ∧ leader s = Team r.
Proof.
  destruct (aggregate sample_roster sample_index) as [[leaderboard pairs]|e] eqn:E;
    [|vm_compute in E; discriminate E].
  destruct (sidebar sample_roster leaderboard pairs) as [s|e] eqn:Es.
  - exists leaderboard, pairs, s. split; [reflexivity|]. split; [exact Es|].
    split.
    + vm_compute in E. injection E as <- <-. vm_compute in Es.
      injection Es as <-. reflexivity.
    + exact (X11_leader_is_first_of_least_total _ _ _ _ _ E Es).
  - exfalso. vm_compute in E. injection E as <- <-. vm_compute in Es.
    discriminate Es.
Defined.

(** X12.  The best player that the sidebar names is the first pair, in
    roster and tier order, among those of least adjusted score.  Its score
    is at most every adjusted score of every row, so five times it is at
    most every total. *)
Theorem X12_best_player_is_first_of_least_score
    teams_data live_data leaderboard pairs s :
  aggregate teams_data live_data = Ret (leaderboard, pairs) →
  sidebar teams_data leaderboard pairs = Shown s →
  (∃ i, first_least snd pairs i (best_player s)) ∧
  Forall (λ r, Forall (λ x, (best_player s).2 ≤ x) (AdjustedScores r) ∧
               5 * (best_player s).2 ≤ Total r) leaderboard.
Proof.
  intros (worst & scored & _ & Hscored & -> & ->)%aggregate_Ret
         (_ & _ & _ & _ & _ & Hmin & _)%sidebar_Shown.
  destruct (min_by_Ret _ _ _ Hmin) as [i Hi]. split; [by exists i|].
  rewrite sorted_Permutation. apply Forall_fmap, Forall_forall.
  intros [r ps] Hin. apply mapM_Ret in Hscored.
  assert (∃ t, score_team live_data worst t = Ret (r, ps)) as [t Ht].
  { clear -Hscored Hin. induction Hscored as [|t rp ? ? Ht _ IH];
      [by apply elem_of_nil in Hin|].
    apply elem_of_cons in Hin as [<-|Hin]; [by exists t|by apply IH]. }
  destruct (score_team_Ret _ _ _ _ _ Ht) as (_ & _ & _ & Hadj & Hlen & Htotal).
  assert (Forall (λ x, (best_player s).2 ≤ x) (AdjustedScores r)) as Hall.
  { rewrite Hadj. apply Forall_fmap, Forall_forall. intros pair Hpair.
    assert (pair ∈ concat scored.*2) as Hp.
    { apply (elem_of_concat _ _ ps); [done|].
      apply list_elem_of_fmap. by exists (r, ps). }
    apply list_elem_of_lookup in Hp as [j Hj].
    destruct Hi as [_ Hleast]. by destruct (Hleast j pair Hj). }
  simpl. split; [done|].
  destruct (best_five_of_six _ Hlen)
    as (dropped & kept & Hperm & Hkept & _ & _ & Hsum & _).
  rewrite Htotal, Hsum.
  assert (Forall (λ x, (best_player s).2 ≤ x) kept) as Hk.
  { rewrite Hperm in Hall. by apply Forall_cons in Hall as [_ ?]. }
  apply sum_lower_bound in Hk. rewrite Hkept in Hk. lia.
Qed.

Lemma X12_witness :
  ∃ leaderboard pairs s,
    aggregate sample_roster sample_index = Ret (leaderboard, pairs) ∧
    sidebar sample_roster leaderboard pairs = Shown s ∧
    best_player s = ("B"%string, -3) ∧
    Forall (λ r, 5 * (best_player s).2 ≤ Total r) leaderboard.
Proof.
  destruct (aggregate sample_roster sample_index) as [[leaderboard pairs]|e] eqn:E;
    [|vm_compute in E; discriminate E].
  destruct (sidebar sample_roster leaderboard pairs) as [s|e] eqn:Es.
  - exists leaderboard, pairs, s. split; [reflexivity|]. split; [exact Es|].
    split.
    + vm_compute in E. injection E as <- <-. vm_compute in Es.
      injection Es as <-. reflexivity.
    + eapply Forall_impl;
        [exact (proj2 (X12_best_player_is_first_of_least_score _ _ _ _ _ E Es))|].
      intros r Hr. exact (proj2 Hr).
  - exfalso. vm_compute in E. injection E as <- <-. vm_compute in Es.
    discriminate Es.
Defined.

(** ** The picks by tier *)

Section PickFacts.

Lemma tier_key_inj i j : tier_key i = tier_key j → i = j.
Proof.
  unfold tier_key. intros H%(inj (String.app "Tier ")). by apply (inj pretty).
Qed.

Lemma counts_of_bump_tier tier tier' name tier_counts :
  counts_of tier (bump_tier tier' name tier_counts)
  = if decide (tier' = tier) then bump name (counts_of tier tier_counts)
    else counts_of tier tier_counts.
Proof.
  induction tier_counts as [|[t counts] rest IH]; simpl.
  - by repeat case_decide.
  - repeat (case_decide; simpl; simplify_eq); done.
Qed.

Lemma count_tiers_counts t tiers : ∀ tier_counts counted i,
  NoDup tiers →
  count_tiers t tiers tier_counts = Ret counted →
  counts_of (tier_key i) counted
  = match (if decide (i ∈ tiers) then pick t i else None) with
    | Some name => bump name (counts_of (tier_key i) tier_counts)
    | None => counts_of (tier_key i) tier_counts
    end ∧
  ∀ j, j ∈ tiers → is_Some (pick t j).
Proof.
  induction tiers as [|k tiers IH]; intros tier_counts counted i Hnodup; simpl.
  - intros [= <-]. split; [done|]. by intros j ?%elem_of_nil.
  - apply NoDup_cons in Hnodup as [Hk Hnodup].
    unfold getitem. destruct (t !! tier_key k) as [raw|] eqn:Hraw; [|done].
    rewrite bind_Ret. intros Hrest.
    destruct (IH _ _ i Hnodup Hrest) as [Hcounts Hpicks].
    assert (pick t k = Some (strip raw)) as Hpick.
    { unfold pick. by rewrite Hraw. }
    split.
    + rewrite Hcounts, counts_of_bump_tier.
      destruct (decide (i = k)) as [->|Hik].
      * rewrite (decide_False (P := k ∈ tiers)) by done.
        rewrite (decide_True (P := tier_key k = tier_key k)) by done.
        rewrite (decide_True (P := k ∈ k :: tiers)) by left.
        by rewrite Hpick.
      * rewrite (decide_False (P := tier_key k = tier_key i))
          by (intros ?%tier_key_inj; done).
        destruct (decide (i ∈ tiers)) as [Hi|Hi].
        -- by rewrite (decide_True (P := i ∈ k :: tiers)) by (by right).
        -- rewrite (decide_False (P := i ∈ k :: tiers)); [done|].
           by intros [?|?]%elem_of_cons.
    + intros j [->|Hj]%elem_of_cons; [by eexists|by apply Hpicks].
Qed.

Lemma count_teams_counts teams_data : ∀ tier_counts counted i,
  i ∈ seq 1 6 →
  count_teams teams_data tier_counts = Ret counted →
  counts_of (tier_key i) counted
  = foldl (λ counts name, bump name counts)
          (counts_of (tier_key i) tier_counts)
          (omap (λ t, pick t i) teams_data) ∧
  Forall (λ t, is_Some (pick t i)) teams_data.
Proof.
  induction teams_data as [|t rest IH]; intros tier_counts counted i Hi.
  - intros [= <-]. by split.
  - change (count_teams (t :: rest) tier_counts)
      with (c ← count_tiers t (seq 1 6) tier_counts; count_teams rest c).
    destruct (count_tiers t (seq 1 6) tier_counts) as [c|] eqn:Hc; [|done].
    rewrite bind_Ret. intros Hrest.
    destruct (count_tiers_counts t (seq 1 6) tier_counts c i (NoDup_seq 1 6) Hc)
      as [Hcounts Hpicks].
    destruct (IH _ _ i Hi Hrest) as [Hfold Hall].
    destruct (Hpicks i Hi) as [name Hname].
    rewrite decide_True, Hname in Hcounts by done.
    split; [|constructor; [by eexists|done]].
    simpl. by rewrite Hname, Hfold, Hcounts.
Qed.

Lemma count_of_bump name n counts :
  count_of name (bump n counts)
  = if decide (n = name) then S (count_of name counts)
    else count_of name counts.
Proof.
  induction counts as [|[m c] rest IH]; simpl.
  - by repeat case_decide.
  - repeat (case_decide; simpl; simplify_eq); done.
Qed.

Lemma count_of_foldl name names : ∀ counts,
  count_of name (foldl (λ counts n, bump n counts) counts names)
  = (count_of name counts + length (filter (λ n, n = name) names))%nat.
Proof.
  induction names as [|n names IH]; intros counts; simpl; [lia|].
  rewrite IH, count_of_bump, filter_cons.
  destruct (decide (n = name)); simpl; lia.
Qed.

Lemma names_bump n counts :
  (bump n counts).*1
  = if decide (n ∈ counts.*1) then counts.*1 else counts.*1 ++ [n].
Proof.
  induction counts as [|[m c] rest IH]; [done|].
  simpl bump. destruct (decide (m = n)) as [->|Hm]; rewrite !fmap_cons.
  - simpl. by rewrite decide_True by left.
  - rewrite IH. simpl. destruct (decide (n ∈ rest.*1)) as [Hn|Hn].
    + by rewrite decide_True by (by right).
    + rewrite decide_False; [done|]. by intros [?|?]%elem_of_cons.
Qed.

Lemma names_foldl names : ∀ counts,
  (foldl (λ counts n, bump n counts) counts names).*1
  = foldl (λ seen n, if decide (n ∈ seen) then seen else seen ++ [n])
          counts.*1 names.
Proof.
  induction names as [|n names IH]; intros counts; simpl; [done|].
  by rewrite IH, names_bump.
Qed.

Lemma sum_bump n counts :
  sum_list (bump n counts).*2 = S (sum_list counts.*2).
Proof.
  induction counts as [|[m c] rest IH]; [done|].
  simpl bump. destruct (decide (m = n)); rewrite !fmap_cons; simpl; [done|].
  rewrite IH. lia.
Qed.

Lemma sum_foldl_bump names : ∀ counts,
  sum_list (foldl (λ counts n, bump n counts) counts names).*2
  = (sum_list counts.*2 + length names)%nat.
Proof.
  induction names as [|n names IH]; intros counts; simpl; [lia|].
  rewrite IH, sum_bump. lia.
Qed.

Lemma positive_bump n counts :
  Forall (λ e : string * nat, (1 ≤ e.2)%nat) counts →
  Forall (λ e : string * nat, (1 ≤ e.2)%nat) (bump n counts).
Proof.
  induction 1 as [|[m c] rest Hc Hrest IH]; simpl.
  - constructor; [simpl; lia|constructor].
  - destruct (decide (m = n)); (constructor; [simpl in *; lia|done]).
Qed.

Lemma positive_foldl names : ∀ counts,
  Forall (λ e : string * nat, (1 ≤ e.2)%nat) counts →
  Forall (λ e : string * nat, (1 ≤ e.2)%nat)
         (foldl (λ counts n, bump n counts) counts names).
Proof.
  induction names as [|n names IH]; intros counts Hc; simpl; [done|].
  by apply IH, positive_bump.
Qed.

Lemma NoDup_seen (names : list string) : ∀ seen,
  NoDup seen →
  NoDup (foldl (λ seen n, if decide (n ∈ seen) then seen else seen ++ [n])
               seen names).
Proof.
  induction names as [|n names IH]; intros seen Hseen; simpl; [done|].
  apply IH. destruct (decide (n ∈ seen)); [done|].
  apply NoDup_app. split; [done|]. split; [|apply NoDup_singleton].
  intros x Hx ->%list_elem_of_singleton. done.
Qed.

Lemma omap_pick_filter teams_data i name :
  Forall (λ t, is_Some (pick t i)) teams_data →
  length (filter (λ n, n = name) (omap (λ t, pick t i) teams_data))
  = length (filter (λ t, pick t i = Some name) teams_data) ∧
  length (omap (λ t, pick t i) teams_data) = length teams_data.
Proof.
  induction 1 as [|t rest [n Hn] _ [IH1 IH2]]; [done|].
  csimpl. rewrite Hn. csimpl. rewrite !filter_cons, Hn.
  split; [|simpl; by rewrite IH2].
  destruct (decide (n = name)) as [->|Hne].
  - rewrite decide_True by done. simpl. by rewrite IH1.
  - rewrite decide_False by congruence. done.
Qed.

End PickFacts.

(** X13.  What the counting loop of the sidebar counts.  When it returns,
    the entry of a name under a tier is the number of teams whose entry for
    that tier, trimmed, is that very name: the same player in another case
    is another name.  Under each tier the names are listed once, in the
    order in which the roster shows them first, every count is at least
    one, and the counts add up to the number of teams. *)
Theorem X13_counts_are_picks teams_data tier_counts i :
  count_picks teams_data = Ret tier_counts →
  i ∈ seq 1 6 →
  (∀ name,
     count_of name (counts_of (tier_key i) tier_counts)
     = length (filter (λ t, pick t i = Some name) teams_data)) ∧
  (counts_of (tier_key i) tier_counts).*1
  = first_seen (omap (λ t, pick t i) teams_data) ∧
  NoDup (counts_of (tier_key i) tier_counts).*1 ∧
  Forall (λ e : string * nat, (1 ≤ e.2)%nat)
         (counts_of (tier_key i) tier_counts) ∧
  sum_list (counts_of (tier_key i) tier_counts).*2 = length teams_data.
Proof.
  intros Hrun Hi.
  destruct (count_teams_counts _ _ _ i Hi Hrun) as [-> Hall]. simpl.
  destruct (omap_pick_filter teams_data i EmptyString Hall) as [_ Hlen].
  split; [|split; [|split; [|split]]].
  - intros name. rewrite count_of_foldl. simpl.
    by destruct (omap_pick_filter teams_data i name Hall) as [-> _].
  - by rewrite names_foldl.
  - rewrite names_foldl. apply NoDup_seen, NoDup_nil_2.
  - by apply positive_foldl.
  - rewrite sum_foldl_bump. simpl. by rewrite Hlen.
Qed.

Lemma X13_witness :
  ∃ tier_counts,
    count_picks sample_roster = Ret tier_counts ∧
    counts_of "Tier 5" tier_counts = [("b", 1); ("B", 2)]%string%nat ∧
    count_of "B" (counts_of "Tier 5" tier_counts)
    = length (filter (λ t, pick t 5 = Some "B"%string) sample_roster).
Proof.
  destruct (count_picks sample_roster) as [tier_counts|e] eqn:E;
    [|vm_compute in E; discriminate E].
  exists tier_counts. split; [reflexivity|]. split.
  - vm_compute in E. injection E as <-. reflexivity.
  - apply (proj1 (X13_counts_are_picks sample_roster tier_counts 5 E
                    ltac:(by do 4 right; left))).
Defined.

(** ** The order of the list of picks *)

Section ListingFacts.

Lemma keys_bump_tier tier name tier_counts :
  (bump_tier tier name tier_counts).*1
  = if decide (tier ∈ tier_counts.*1) then tier_counts.*1
    else tier_counts.*1 ++ [tier].
Proof.
  induction tier_counts as [|[t counts] rest IH]; [done|].
  simpl bump_tier. destruct (decide (t = tier)) as [->|Ht]; rewrite !fmap_cons.
  - simpl. by rewrite decide_True by left.
  - rewrite IH. simpl. destruct (decide (tier ∈ rest.*1)) as [Hn|Hn].
    + by rewrite decide_True by (by right).
    + rewrite decide_False; [done|]. by intros [?|?]%elem_of_cons.
Qed.

Lemma count_tiers_keys t tiers : ∀ tier_counts counted,
  count_tiers t tiers tier_counts = Ret counted →
  counted.*1 = foldl (λ seen k, if decide (k ∈ seen) then seen else seen ++ [k])
                     tier_counts.*1 (tier_key <$> tiers).
Proof.
  induction tiers as [|i tiers IH]; intros tier_counts counted; simpl.
  - by intros [= <-].
  - unfold getitem. destruct (t !! tier_key i) as [raw|]; [|done].
    rewrite bind_Ret. intros ->%IH. by rewrite keys_bump_tier.
Qed.

Lemma count_teams_keys teams_data : ∀ tier_counts counted,
  count_teams teams_data tier_counts = Ret counted →
  tier_counts.*1 = tier_key <$> seq 1 6 →
  counted.*1 = tier_key <$> seq 1 6.
Proof.
  induction teams_data as [|t rest IH]; intros tier_counts counted.
  - by intros [= <-].
  - change (count_teams (t :: rest) tier_counts)
      with (c ← count_tiers t (seq 1 6) tier_counts; count_teams rest c).
    destruct (count_tiers t (seq 1 6) tier_counts) as [c|] eqn:Hc; [|done].
    rewrite bind_Ret. intros Hrest Hkeys. apply (IH _ _ Hrest).
    rewrite (count_tiers_keys _ _ _ _ Hc), Hkeys. by vm_compute.
Qed.

Lemma count_picks_keys teams_data tier_counts :
  count_picks teams_data = Ret tier_counts → teams_data ≠ [] →
  tier_counts.*1 = tier_key <$> seq 1 6.
Proof.
  unfold count_picks. destruct teams_data as [|t rest]; [done|]. intros Hrun _.
  change (count_teams (t :: rest) [])
    with (c ← count_tiers t (seq 1 6) []; count_teams rest c) in Hrun.
  destruct (count_tiers t (seq 1 6) []) as [c|] eqn:Hc; [|done].
  rewrite bind_Ret in Hrun. apply (count_teams_keys _ _ _ Hrun).
  rewrite (count_tiers_keys _ _ _ _ Hc). by vm_compute.
Qed.

End ListingFacts.

(** X14.  The order of the list of picks.  For a roster with a team, the
    sidebar lists the six tiers, ["Tier 1"] to ["Tier 6"], each once and in
    this order.  Under a tier it lists the names counted for it, each with
    its count, by descending count; names picked equally often stay in the
    order in which they were counted first. *)
Theorem X14_listing_order teams_data tier_counts :
  count_picks teams_data = Ret tier_counts →
  teams_data ≠ [] →
  (listing tier_counts).*1 = tier_key <$> seq 1 6 ∧
  ∀ tier entries,
    (tier, entries) ∈ listing tier_counts →
    entries ≡ₚ counts_of tier tier_counts ∧
    (∀ j a b, entries !! j = Some a → entries !! S j = Some b →
              (b.2 ≤ a.2)%nat) ∧
    ∀ c : nat, filter (λ e, e.2 = c) entries
               = filter (λ e, e.2 = c) (counts_of tier tier_counts).
Proof.
  intros Hrun Hteams. pose proof (count_picks_keys _ _ Hrun Hteams) as Hkeys.
  unfold listing. rewrite Hkeys. split.
  - rewrite <-list_fmap_compose. by vm_compute.
  - intros tier entries (k & [= -> ->] & _)%list_elem_of_fmap.
    split; [apply sorted_Permutation|]. split.
    + intros j a b Ha Hb.
      pose proof (sorted_adjacent _ _ _ _ _ Ha Hb) as Hle. simpl in Hle. lia.
    + intros c.
      transitivity (filter (λ e : string * nat, - Z.of_nat e.2 = - Z.of_nat c)
                           (counts_of k tier_counts));
        [|apply list_filter_iff; intros e; lia].
      rewrite <-sorted_stable. apply list_filter_iff. intros e. lia.
Qed.

Lemma X14_witness :
  ∃ tier_counts,
    count_picks sample_roster = Ret tier_counts ∧
    (listing tier_counts).*1
    = ["Tier 1"; "Tier 2"; "Tier 3"; "Tier 4"; "Tier 5"; "Tier 6"]%string ∧
    counts_of "Tier 5" tier_counts = [("b", 1); ("B", 2)]%string%nat ∧
    ("Tier 5"%string, [("B"%string, 2%nat); ("b"%string, 1%nat)])
      ∈ listing tier_counts.
Proof.
  destruct (count_picks sample_roster) as [tier_counts|e] eqn:E;
    [|vm_compute in E; discriminate E].
  exists tier_counts. split; [reflexivity|]. split.
  - apply (proj1 (X14_listing_order sample_roster tier_counts E
                    ltac:(discriminate))).
  - vm_compute in E. injection E as <-. split; [reflexivity|].
    vm_compute. do 4 right. left.
Defined.

(** ** The envelope of the feed *)

Example envelope_samples :
  select_players nested_body = Ret (Some (PList sample_records)) ∧
  select_players flat_body = Ret (Some (PList sample_records)) ∧
  select_players double_body = Ret (Some (PList sample_records)) ∧
  select_players null_data_body = Raise TypeError ∧
  select_players (PDict [("data"%string, PStr "the players")])
  = Raise TypeError ∧
  select_players (PDict [("data"%string, PStr "none");
                         ("player"%string, PInt 1)]) = Ret (Some (PInt 1)) ∧
  select_players (PDict [("players"%string, PList sample_records)]) = Ret None ∧
  select_players (PList []) = Ret None ∧
  select_players (PList [PStr "player"]) = Raise TypeError ∧
  select_players (PStr "no data") = Raise TypeError ∧
  select_players PNone = Raise TypeError.
Proof. vm_compute. repeat split. Qed.

Section EnvelopeFacts.

Lemma contains_dict k d :
  contains k (PDict d) = Ret true ↔ is_Some (items d !! k).
Proof.
  simpl. split.
  - intros [= H]. by apply bool_decide_eq_true in H.
  - intros H. by rewrite bool_decide_eq_true_2.
Qed.

Lemma contains_dict_false k d :
  contains k (PDict d) = Ret false ↔ items d !! k = None.
Proof.
  simpl. split.
  - intros [= H]. apply bool_decide_eq_false in H. by apply eq_None_not_Some.
  - intros H. rewrite bool_decide_eq_false_2; [done|]. by rewrite H; intros [??].
Qed.

Lemma contains_TypeError k v e : contains k v = Raise e → e = TypeError.
Proof. destruct v; simpl; congruence. Qed.

Lemma subscript_Ret v k x :
  subscript v k = Ret x ↔ ∃ d, v = PDict d ∧ items d !! k = Some x.
Proof.
  split.
  - destruct v as [| | | | | |d]; try done. simpl. unfold getitem.
    destruct (items d !! k) as [y|] eqn:Hy; [|done]. intros [= ->]. by exists d.
  - intros (d & -> & H). simpl. unfold getitem. by rewrite H.
Qed.

(** The selection on a dictionary, branch by branch. *)
Lemma select_players_dict d :
  select_players (PDict d) =
  match items d !! "data"%string with
  | Some inner =>
      match contains "player" inner with
      | Ret true => player_data ← subscript inner "player"; Ret (Some player_data)
      | Ret false => Ret (items d !! "player"%string)
      | Raise e => Raise e
      end
  | None => Ret (items d !! "player"%string)
  end.
Proof.
  unfold select_players. simpl contains. simpl subscript. unfold getitem.
  destruct (items d !! "data"%string) as [inner|] eqn:Hdata.
  - rewrite (bool_decide_eq_true_2 (is_Some (Some inner))) by (by eexists).
    rewrite ?bind_Ret.
    destruct (contains "player" inner) as [[]|e]; rewrite ?bind_Ret; try done.
    destruct (items d !! "player"%string) as [pl|] eqn:Hpl.
    + rewrite (bool_decide_eq_true_2 (is_Some (Some pl))) by (by eexists).
      by rewrite ?bind_Ret.
    + rewrite (bool_decide_eq_false_2 (is_Some None)) by (by intros [??]).
      by rewrite ?bind_Ret.
  - rewrite (bool_decide_eq_false_2 (is_Some None)) by (by intros [??]).
    rewrite ?bind_Ret.
    destruct (items d !! "player"%string) as [pl|] eqn:Hpl.
    + rewrite (bool_decide_eq_true_2 (is_Some (Some pl))) by (by eexists).
      by rewrite ?bind_Ret.
    + rewrite (bool_decide_eq_false_2 (is_Some None)) by (by intros [??]).
      by rewrite ?bind_Ret.
Qed.

(** The selection on a value that is no dictionary. *)
Lemma select_players_other data :
  (∀ d, data ≠ PDict d) →
  select_players data =
  match contains "data" data, contains "player" data with
  | Ret false, Ret false => Ret None
  | _, _ => Raise TypeError
  end.
Proof.
  intros Hdata. unfold select_players.
  destruct data as [| | | |s|l|d]; try done; [| |by destruct (Hdata d)].
  - simpl. destruct (occurs "data" s); [reflexivity|]. rewrite bind_Ret.
    by destruct (occurs "player" s).
  - simpl. destruct (existsb (λ x, eq_str x "data") l); [reflexivity|].
    rewrite bind_Ret. by destruct (existsb _ l).
Qed.

Lemma index_values_objects ds : ∀ acc,
  index_values (PDict <$> ds) acc = index_players (items <$> ds) acc.
Proof.
  induction ds as [|d ds IH]; intros acc; [done|].
  rewrite !fmap_cons. simpl.
  destruct (getitem (items d) "full_name") as [v|]; [|done]. rewrite !bind_Ret.
  destruct (strip_lower_method v) as [key|]; [|done]. rewrite !bind_Ret.
  apply IH.
Qed.

Lemma index_values_Ret l : ∀ acc live_data,
  index_values l acc = Ret live_data → ∃ ds, l = PDict <$> ds.
Proof.
  induction l as [|p l IH]; intros acc live_data; [by exists []|].
  destruct p as [| | | | | |d]; try done. simpl.
  destruct (getitem (items d) "full_name") as [v|]; [|done]. rewrite !bind_Ret.
  destruct (strip_lower_method v) as [key|]; [|done]. rewrite !bind_Ret.
  intros [ds ->]%IH. by exists (d :: ds).
Qed.

Lemma index_values_exn l : ∀ acc e,
  index_values l acc = Raise e →
  e = TypeError ∨ e = KeyError ∨ e = AttributeError.
Proof.
  induction l as [|p l IH]; intros acc e; [done|].
  destruct p as [| | | | | |d]; simpl; try (intros [= <-]; by left).
  unfold getitem. destruct (items d !! "full_name"%string) as [v|];
    [|intros [= <-]; auto].
  rewrite !bind_Ret.
  destruct v; simpl; try (intros [= <-]; by auto). apply IH.
Qed.

(** What the comprehension makes of a value that is no list. *)
Lemma iterate_other player_data elements :
  (∀ l, player_data ≠ PList l) →
  iterate player_data = Ret elements →
  (elements = [] ∧ no_players player_data) ∨
  (∃ s rest, elements = PStr s :: rest).
Proof.
  intros Hl. destruct player_data as [| | | |s|l|d]; try done.
  - intros [= <-]. destruct s as [|c s]; [left; split; [done|]|right].
    + right. by right.
    + simpl. by eexists _, _.
  - by destruct (Hl l).
  - intros [= <-]. destruct d as [|[k v] d]; [left; split; [done|]|right].
    + right. by left.
    + simpl. by eexists _, _.
Qed.

Lemma index_players_empty player_data live_data :
  index_players player_data ∅ = Ret live_data →
  live_data = ∅ → player_data = [].
Proof.
  intros Hrun ->. destruct player_data as [|p rest]; [done|].
  destruct (index_players_covers _ _ _ Hrun) as [_ Hcov].
  destruct (Hcov p) as (fn & _ & q & Hq); [left|].
  by rewrite lookup_empty in Hq.
Qed.

Lemma select_players_cases data :
  (∀ player_data,
     select_players data = Ret (Some player_data) ↔
     ∃ d, data = PDict d ∧
          (nested d player_data ∨
           no_nested d ∧ items d !! "player"%string = Some player_data)) ∧
  (select_players data = Ret None ↔ unrecognised data) ∧
  (∀ e, select_players data = Raise e → e = TypeError).
Proof.
  destruct data as [| | | |s|l|d].
  1-6: rewrite select_players_other by done; unfold unrecognised;
       destruct (contains "data" _) as [[]|], (contains "player" _) as [[]|];
       naive_solver.
  rewrite select_players_dict. unfold unrecognised, nested, no_nested.
  split; [|split].
  - intros pl. split.
    + intros Hsel. exists d. split; [done|].
      destruct (items d !! "data"%string) as [inner|] eqn:Hdata.
      * destruct (contains "player" inner) as [[]|e] eqn:Hin; [| |done].
        -- left. destruct (subscript inner "player") as [x|] eqn:Hx; [|done].
           injection Hsel as ->.
           apply subscript_Ret in Hx as (di & -> & Hx). by exists di.
        -- right. injection Hsel as Hpl. split; [|done]. right. by exists inner.
      * right. injection Hsel as Hpl. split; [by left|done].
    + intros (d' & [= <-] & [(inner & -> & Hpl)|[Hno Hpl]]).
      * rewrite (proj2 (contains_dict _ _)) by done.
        simpl. unfold getitem. by rewrite Hpl.
      * destruct Hno as [->|(v & -> & ->)]; by rewrite Hpl.
  - rewrite !contains_dict_false. split.
    + intros Hsel.
      destruct (items d !! "data"%string) as [inner|] eqn:Hdata.
      * destruct (contains "player" inner) as [[]|e] eqn:Hin; [| |done].
        -- by destruct (subscript inner "player").
        -- injection Hsel as Hpl. split; [done|]. right. exists d.
           split; [done|]. right. by exists inner.
      * injection Hsel as Hpl. split; [done|]. by left.
    + intros [Hpl Hno]. rewrite Hpl.
      by destruct Hno as [->|(d' & [= <-] & [->|(v & -> & ->)])].
  - intros e. destruct (items d !! "data"%string) as [inner|]; [|done].
    destruct (contains "player" inner) as [[]|e'] eqn:Hin; [|done|].
    + destruct inner as [| | | |s|l|di]; simpl; try (by intros [= <-]).
      apply contains_dict in Hin as [x Hx]. unfold getitem. by rewrite Hx.
    + intros [= <-]. by eapply contains_TypeError.
Qed.

Lemma fetch_json_Ret data player_data live_data :
  select_players data = Ret (Some player_data) →
  fetch_live_scores_json (Ret data) = Ret live_data ↔
  (no_players player_data ∧ live_data = ∅) ∨
  ∃ ds, player_data = PList (PDict <$> ds) ∧
        fetch_live_scores (Ret (items <$> ds)) = Ret live_data.
Proof.
  intros Hsel. unfold fetch_live_scores_json.
  rewrite bind_Ret, Hsel, bind_Ret. split.
  - assert ((∃ l, player_data = PList l) ∨ ∀ l, player_data ≠ PList l)
      as [[l ->]|Hl]
      by (destruct player_data; try (right; by intros ?); left; by eexists).
    + change (iterate (PList l)) with (Ret l). rewrite bind_Ret. intros Hrun.
      destruct (index_values_Ret _ _ _ Hrun) as [ds ->].
      right. exists ds. split; [done|]. unfold fetch_live_scores.
      by rewrite bind_Ret, <-index_values_objects.
    + destruct (iterate player_data) as [elements|] eqn:Hit; [|done].
      rewrite bind_Ret.
      destruct (iterate_other player_data elements Hl Hit)
        as [[-> Hno]|(s & rest & ->)]; [|done].
      intros [= <-]. by left.
  - intros [[[->|[->| ->]] ->]|(ds & -> & Hrun)]; try done.
    unfold fetch_live_scores in Hrun. rewrite bind_Ret in Hrun.
    change (iterate (PList (PDict <$> ds))) with (Ret (PDict <$> ds)).
    by rewrite bind_Ret, index_values_objects.
Qed.

End EnvelopeFacts.

(** X15.  Which list of players the envelope gives.  A list is found in a
    dictionary only: the one of the nested envelope [data["data"]["player"]]
    when [data["data"]] is a dictionary with that key, whatever else the
    body has; otherwise, provided that looking for the nested envelope
    raised nothing, the one under ["player"].  The branch that returns
    [{}] is taken exactly by the bodies that have neither.  Nothing but
    [TypeError] is raised; it is raised, for one, by a body whose ["data"]
    is [null], a boolean or a number, and the list under ["player"] that
    such a body may have is not read. *)
Theorem X15_envelope_choice data :
  (∀ player_data,
     select_players data = Ret (Some player_data) ↔
     ∃ d, data = PDict d ∧
          (nested d player_data ∨
           no_nested d ∧ items d !! "player"%string = Some player_data)) ∧
  (select_players data = Ret None ↔ unrecognised data) ∧
  (∀ e, select_players data = Raise e → e = TypeError) ∧
  (∀ d v, data = PDict d → items d !! "data"%string = Some v → scalar v →
          select_players data = Raise TypeError).
Proof.
  destruct (select_players_cases data) as (Hsome & Hnone & Hexn).
  split; [exact Hsome|]. split; [exact Hnone|]. split; [exact Hexn|].
  intros d v -> Hv Hscalar. rewrite select_players_dict, Hv.
  by destruct v.
Qed.

(** X16.  What [fetch_live_scores] returns for a body in which a list of
    players was found.  It returns an index when nothing is to be indexed
    (an empty list, an empty dictionary, an empty string), and when the
    list is a list of dictionaries that the comprehension can index; the
    index is then the one of the records.  In every other case it raises;
    whatever the body, it raises [TypeError], [KeyError] or
    [AttributeError] and nothing else. *)
Theorem X16_fetch_of_the_body data :
  (∀ player_data live_data,
     select_players data = Ret (Some player_data) →
     fetch_live_scores_json (Ret data) = Ret live_data ↔
     (no_players player_data ∧ live_data = ∅) ∨
     ∃ ds, player_data = PList (PDict <$> ds) ∧
           fetch_live_scores (Ret (items <$> ds)) = Ret live_data) ∧
  (∀ e, fetch_live_scores_json (Ret data) = Raise e →
        e = TypeError ∨ e = KeyError ∨ e = AttributeError).
Proof.
  split; [intros pl live_data; apply fetch_json_Ret|].
  intros e. unfold fetch_live_scores_json. rewrite bind_Ret.
  destruct (select_players data) as [[pl|]|e'] eqn:Hsel; rewrite ?bind_Ret.
  - destruct (iterate pl) as [elements|e'] eqn:Hit; rewrite ?bind_Ret.
    + apply index_values_exn.
    + intros [= <-]. left. destruct pl; simpl in Hit; congruence.
  - done.
  - intros [= <-]. left.
    by apply (proj2 (proj2 (select_players_cases data))).
Qed.

Lemma X16_witness :
  ∃ live_data,
    fetch_live_scores_json (Ret double_body) = Ret live_data ∧
    dom live_data = ({[ "a"; "b" ]} : gset string)%string.
Proof.
  destruct (X16_fetch_of_the_body double_body) as [Hiff _].
  assert (∃ live_data,
            fetch_live_scores (Ret (items <$> sample_objects)) = Ret live_data ∧
            dom live_data = ({[ "a"; "b" ]} : gset string)%string)
    as (live_data & Hrun & Hdom).
  { eexists. split; [reflexivity|]. by vm_compute. }
  exists live_data. split; [|exact Hdom].
  apply (proj2 (Hiff (PList sample_records) live_data eq_refl)).
  right. exists sample_objects. split; [reflexivity|exact Hrun].
Defined.

(** X17.  When the message of the guard is shown.  A body that was decoded
    ends the script with ["Could not fetch live Masters data."] exactly when
    no envelope is recognised in it or the list of players found in it has
    nothing to index.  A request or a decoding that raised is not reported
    this way: its exception is the one of the script. *)
Theorem X17_message_of_the_guard teams_data :
  (∀ data message,
     script_json teams_data (Ret data) = Stopped message ↔
     message = "Could not fetch live Masters data."%string ∧
     (unrecognised data ∨
      ∃ player_data,
        select_players data = Ret (Some player_data) ∧
        no_players player_data)) ∧
  (∀ e, script_json teams_data (Raise e) = Uncaught e).
Proof.
  split; [|done]. intros data message. unfold script_json.
  destruct (select_players_cases data) as (_ & Hnone & _). split.
  - destruct (fetch_live_scores_json (Ret data)) as [live_data|e] eqn:Hfetch;
      [|done].
    unfold guarded. destruct (not_dict live_data) eqn:Hempty;
      [|by destruct (aggregate teams_data live_data) as [[??]|?]].
    intros [= <-]. split; [done|].
    apply Is_true_true_2, not_dict_empty in Hempty. subst live_data.
    destruct (select_players data) as [[pl|]|e] eqn:Hsel.
    + right. exists pl. split; [done|].
      apply (fetch_json_Ret _ _ _ Hsel) in Hfetch
        as [[Hno _]|(ds & -> & Hrun)]; [done|].
      unfold fetch_live_scores in Hrun. rewrite bind_Ret in Hrun.
      apply index_players_empty in Hrun; [|done].
      destruct ds; [by left|done].
    + left. by apply Hnone.
    + unfold fetch_live_scores_json in Hfetch.
      by rewrite bind_Ret, Hsel in Hfetch.
  - intros [-> Hcase].
    assert (fetch_live_scores_json (Ret data) = Ret ∅) as ->; [|done].
    destruct Hcase as [Hun|(pl & Hsel & Hno)].
    + apply Hnone in Hun. unfold fetch_live_scores_json.
      by rewrite bind_Ret, Hun.
    + apply (fetch_json_Ret _ _ _ Hsel). by left.
Qed.

(** ** The order of the feed *)

Section FeedOrderFacts.

Lemma index_players_Permutation_lookup l l' live live' key p :
  index_players l ∅ = Ret live → index_players l' ∅ = Ret live' →
  NoDup (record_key <$> l') → l ≡ₚ l' →
  live !! key = Some p → live' !! key = Some p.
Proof.
  intros Hl Hl' Hnodup Hperm Hp.
  destruct (index_players_keys _ _ _ Hl key p Hp) as [Hacc|(Hin & fn & Hfn & ->)].
  - by rewrite lookup_empty in Hacc.
  - rewrite Hperm in Hin.
    destruct (index_players_NoDup _ _ _ Hl' Hnodup p Hin) as (key' & Hkey' & Hp').
    unfold record_key in Hkey'. rewrite Hfn in Hkey'. by injection Hkey' as <-.
Qed.

End FeedOrderFacts.

(** X18.  The order of the records in the feed does not matter when no two
    of them have the same key: the feed in any other order gives the same
    index, and the script ends the same way for every roster.  (With two
    records of one key the later one is kept, so the order matters.) *)
Theorem X18_feed_order_is_irrelevant player_data player_data' live_data :
  fetch_live_scores (Ret player_data) = Ret live_data →
  NoDup (record_key <$> player_data) →
  player_data ≡ₚ player_data' →
  fetch_live_scores (Ret player_data') = Ret live_data ∧
  ∀ teams_data,
    script teams_data (Ret player_data') = script teams_data (Ret player_data).
Proof.
  intros Hrun Hnodup Hperm.
  assert (fetch_live_scores (Ret player_data') = Ret live_data) as Hrun'.
  { unfold fetch_live_scores in *. rewrite bind_Ret in *.
    pose proof (index_players_Ret_named _ _ _ Hrun) as Hnamed.
    rewrite Hperm in Hnamed.
    destruct (index_players_named player_data' ∅ Hnamed) as [live_data' Hrun'].
    rewrite Hrun'. f_equal. apply map_eq. intros key.
    assert (NoDup (record_key <$> player_data')) as Hnodup'
      by (by rewrite <-Hperm).
    destruct (live_data !! key) as [p|] eqn:Hp.
    - by apply (index_players_Permutation_lookup player_data player_data' live_data).
    - destruct (live_data' !! key) as [p|] eqn:Hp'; [|done].
      apply (index_players_Permutation_lookup player_data' player_data
               live_data' live_data) in Hp'; [congruence|done..]. }
  split; [done|]. intros teams_data. unfold script. by rewrite Hrun, Hrun'.
Qed.

Lemma X18_witness :
  fetch_live_scores (Ret (reverse sample_feed)) = Ret sample_index ∧
  script sample_roster (Ret (reverse sample_feed))
  = script sample_roster (Ret sample_feed).
Proof.
  destruct (X18_feed_order_is_irrelevant sample_feed (reverse sample_feed)
              sample_index) as [Hindex Hscript].
  - reflexivity.
  - apply (bool_decide_unpack (NoDup (record_key <$> sample_feed))).
    vm_compute. exact I.
  - symmetry. apply reverse_Permutation.
  - split; [exact Hindex|apply Hscript].
Defined.
